(** * A connection pool for gRPC clients: shallow embedding and properties

    The development follows [options.go] and [pool_grpc.go].  A pool keeps a
    buffered channel of idle connection wrappers; [Get] takes one out or dials
    a new one, [Put] gives one back or closes it, [Close] shuts the pool down.

    The embedding is sequential: every method runs to completion before the
    next one starts, so [sync.Mutex] and [sync.RWMutex] operations are
    omitted.  What the Go runtime can do besides returning normally is kept:
    a run-time panic and a goroutine that blocks for ever are outcomes of
    their own. *)

From Stdlib Require Import ZArith List Bool String Lia.
From stdpp Require Import base list.
Import ListNotations.

Local Open Scope Z_scope.

(** ** Outcomes of running Go code *)

Inductive fault : Type :=
| NilFuncCall        (* call of a nil function value *)
| NilDeref           (* nil pointer dereference *)
| Int63nArg          (* rand.Int63n: "invalid argument to Int63n" *)
| BadPointer         (* an address that was never allocated: not expressible in Go *)
| MakechanSize.      (* make(chan T, n): "makechan: size out of range" *)

Inductive outcome (A : Type) : Type :=
| Done (a : A)       (* normal return *)
| Panic (f : fault)  (* run-time panic *)
| Blocked.           (* the goroutine blocks for ever *)

Arguments Done {A} a.
Arguments Panic {A} f.
Arguments Blocked {A}.

(** ** Data of the package *)

(** [errors.New] values of [options.go], and the opaque errors of the
    gRPC collaborator (dial and close failures). *)
Inductive error : Type :=
| errClosed
| errInvalid
| errRejected
| errTargets
| errExternal (msg : string).

(** [type TimeoutType int] with [iota + 1]. *)
Definition TimeoutType : Type := Z.
Definition IdleTimeoutType : TimeoutType := 1.
Definition FixedTimeoutType : TimeoutType := 2.

(** A [[]string]: [None] is the nil slice, [Some []] an empty slice that is
    not nil. *)
Definition slice : Type := option (list string).

Definition len (s : slice) : Z :=
  match s with
  | None => 0
  | Some l => Z.of_nat (length l)
  end.

Definition index (s : slice) (i : Z) : string :=
  match s with
  | None => EmptyString
  | Some l => nth (Z.to_nat i) l EmptyString
  end.

(** The [*[]string] held in [Options.targets]: nil, the address of the
    [InitTargets] field of the same struct, or a slice received from the
    input channel. *)
Inductive targets_ptr : Type :=
| PNil
| PInitTargets
| PSlice (s : slice).

(** [time.Duration]: an int64 number of nanoseconds. *)
Definition Duration : Type := Z.
Definition Millisecond : Duration := 1000000.
Definition Second : Duration := 1000000000.

(** [time.Time]: an instant in nanoseconds on an unbounded line. *)
Definition Time : Type := Z.

(** A [chan *[]string]: the messages in flight in delivery order.  The
    channel value itself may be nil ([None] in [Options.input]). *)
Definition targets_chan : Type := list (option slice).

Module Options.
Record t : Type := mk {
  targets : targets_ptr;
  input : option targets_chan;
  InitTargets : slice;
  InitCap : Z;
  MaxCap : Z;
  TimeoutType : TimeoutType;
  DialTimeout : Duration;
  IdleTimeout : Duration;
  ReadTimeout : Duration;
  WriteTimeout : Duration
}.

Definition set_targets (p : targets_ptr) (o : t) : t :=
  mk p (input o) (InitTargets o) (InitCap o) (MaxCap o) (TimeoutType o)
     (DialTimeout o) (IdleTimeout o) (ReadTimeout o) (WriteTimeout o).

Definition set_input (c : option targets_chan) (o : t) : t :=
  mk (targets o) c (InitTargets o) (InitCap o) (MaxCap o) (TimeoutType o)
     (DialTimeout o) (IdleTimeout o) (ReadTimeout o) (WriteTimeout o).
End Options.

(** A [*grpc.ClientConn] that is not nil: the identity of a connection. *)
Abbreviation conn := nat (only parsing).

(** [GrpcIdleConn]: the wrapper handed to callers and kept in the pool. *)
Record GrpcIdleConn : Type := mkIdle {
  Conn : option conn;
  t : Time
}.

(** A [*GrpcIdleConn] that is not nil: an address in the heap of wrappers. *)
Abbreviation ptr := nat (only parsing).

(** A buffered [chan *GrpcIdleConn]. *)
Record chan : Type := mkChan {
  chan_cap : Z;
  chan_buf : list (option ptr)
}.

(** The two closures [NewGRPCPool] stores in the pool. *)
Inductive factory_fn : Type := DialNextTarget.
Inductive close_fn : Type := ConnClose.

Module GRPCPool.
Record t : Type := mk {
  IdleTimeout : Duration;
  timeoutType : TimeoutType;
  conns : option chan;
  factory : option factory_fn;
  close : option close_fn
}.

Definition set_conns (ch : option chan) (c : t) : t :=
  mk (IdleTimeout c) (timeoutType c) ch (factory c) (close c).
End GRPCPool.

(** ** The world outside the pool *)

(** What the environment answers: the clock, the random source, the dialer
    and the result of closing a connection.  Each stream is indexed by the
    number of earlier calls. *)
Record Env : Type := mkEnv {
  clock : nat -> Time;
  rnd : nat -> Z;
  dialer : nat -> string -> conn + error;
  close_result : conn -> option error
}.

Record World : Type := mkWorld {
  opts : Options.t;             (* the [Options] the factory closure captured *)
  heap : list GrpcIdleConn;     (* wrappers allocated so far, by address *)
  ticks : nat;                  (* calls of [time.Now] *)
  draws : nat;                  (* values taken from the random source *)
  dials : nat;                  (* calls of [grpc.DialContext] *)
  closed : list conn            (* connections closed, oldest first *)
}.

Definition set_opts (o : Options.t) (w : World) : World :=
  mkWorld o (heap w) (ticks w) (draws w) (dials w) (closed w).
Definition set_heap (h : list GrpcIdleConn) (w : World) : World :=
  mkWorld (opts w) h (ticks w) (draws w) (dials w) (closed w).
Definition set_ticks (n : nat) (w : World) : World :=
  mkWorld (opts w) (heap w) n (draws w) (dials w) (closed w).
Definition set_draws (n : nat) (w : World) : World :=
  mkWorld (opts w) (heap w) (ticks w) n (dials w) (closed w).
Definition set_dials (n : nat) (w : World) : World :=
  mkWorld (opts w) (heap w) (ticks w) (draws w) n (closed w).
Definition set_closed (l : list conn) (w : World) : World :=
  mkWorld (opts w) (heap w) (ticks w) (draws w) (dials w) l.

(** ** A state monad with faults *)

Definition M (A : Type) : Type := World -> outcome (A * World).

Definition ret {A} (a : A) : M A := fun w => Done (a, w).

Definition bind {A B} (m : M A) (k : A -> M B) : M B :=
  fun w =>
    match m w with
    | Done (a, w') => k a w'
    | Panic f => Panic f
    | Blocked => Blocked
    end.

Definition panic {A} (f : fault) : M A := fun _ => Panic f.
Definition block {A} : M A := fun _ => Blocked.

Declare Scope go_scope.
Delimit Scope go_scope with go.
Notation "x <- m ;; k" := (bind m (fun x => k))
  (at level 100, m at next level, right associativity) : go_scope.
Notation "m ;;; k" := (bind m (fun _ => k))
  (at level 100, right associativity) : go_scope.
Local Open Scope go_scope.

Section Program.

Variable E : Env.

(** ** Runtime and library primitives *)

Definition time_Now : M Time :=
  fun w => Done (clock E (ticks w), set_ticks (S (ticks w)) w).

(** [rand.Int63]: a non-negative 63-bit value. *)
Definition rand_Int63 : M Z :=
  fun w => Done (rnd E (draws w) mod 2 ^ 63, set_draws (S (draws w)) w).

(** [rand.Int] on a 64-bit platform. *)
Definition rand_Int : M Z := rand_Int63.

(** [rand.Int63n], by its documented contract: a value of [[0, n)], and a
    panic when [n <= 0]. *)
Definition rand_Int63n (n : Z) : M Z :=
  if n <=? 0 then panic Int63nArg
  else v <- rand_Int63 ;; ret (v mod n).

(** [grpc.DialContext]: a connection and a nil error, or nil and an error. *)
Definition grpc_DialContext (target : string) : M (option conn * option error) :=
  fun w =>
    let w' := set_dials (S (dials w)) w in
    match dialer E (dials w) target with
    | inl c => Done ((Some c, None), w')
    | inr e => Done ((None, Some e), w')
    end.

(** The [Close] method of [grpc.ClientConn], on a connection or on nil. *)
Definition ClientConn_Close (v : option conn) : M (option error) :=
  match v with
  | None => panic NilDeref
  | Some c => fun w => Done (close_result E c, set_closed (closed w ++ [c]) w)
  end.

Definition load (p : ptr) : M GrpcIdleConn :=
  fun w =>
    match heap w !! p with
    | Some e => Done (e, w)
    | None => Panic BadPointer
    end.

Definition store_t (p : ptr) (now : Time) : M unit :=
  fun w =>
    match heap w !! p with
    | Some e => Done (tt, set_heap (<[p := mkIdle (Conn e) now]> (heap w)) w)
    | None => Panic BadPointer
    end.

(** [&GrpcIdleConn{...}]: a fresh address. *)
Definition alloc (e : GrpcIdleConn) : M ptr :=
  fun w => Done (length (heap w), set_heap (heap w ++ [e]) w).

(** Int64 arithmetic wraps around. *)
Definition wrap64 (z : Z) : Z := (z + 2 ^ 63) mod 2 ^ 64 - 2 ^ 63.

(** [Duration.Milliseconds]: integer division, truncated toward zero. *)
Definition Milliseconds (d : Duration) : Z := Z.quot d 1000000.

(** ** options.go *)

Definition Input (o : Options.t) : option targets_chan := Options.input o.

Definition NewOptions : Options.t :=
  Options.mk PNil None None 5 100 IdleTimeoutType
    (5 * Second) (60 * Second) (5 * Second) (5 * Second).

Definition validate (o : Options.t) : option error :=
  if match Options.InitTargets o with None => true | Some _ => false end
     || (Options.InitCap o <=? 0)
     || (Options.MaxCap o <=? 0)
     || (Options.MaxCap o <? Options.InitCap o)
     || negb ((Options.TimeoutType o =? IdleTimeoutType)
              || (Options.TimeoutType o =? FixedTimeoutType))
     || (Options.DialTimeout o =? 0)
     || (Options.ReadTimeout o =? 0)
     || (Options.WriteTimeout o =? 0)
  then Some errInvalid
  else None.

(** [*o.targets]. *)
Definition deref_targets (o : Options.t) : outcome slice :=
  match Options.targets o with
  | PNil => Panic NilDeref
  | PInitTargets => Done (Options.InitTargets o)
  | PSlice s => Done s
  end.

Definition nextTarget : M string :=
  fun w =>
    match deref_targets (opts w) with
    | Done ts =>
        let tlen := len ts in
        if tlen <=? 0 then Done (EmptyString, w)
        else (v <- rand_Int ;; ret (index ts (Z.rem v tlen))) w
    | Panic f => Panic f
    | Blocked => Blocked
    end.

(** The synchronous part of [update]: [o.targets = &o.InitTargets]. *)
Definition update : M unit :=
  fun w => Done (tt, set_opts (Options.set_targets PInitTargets (opts w)) w).

(** A send on [o.Input()].  A nil channel is never ready. *)
Definition send (ch : option targets_chan) (m : option slice) : outcome targets_chan :=
  match ch with
  | None => Blocked
  | Some q => Done (q ++ [m])
  end.

(** One turn of the goroutine started by [update]: receive the next message
    of [range o.input] and apply it.  [Blocked] when nothing can be
    received; on a nil channel that is for ever. *)
Definition listener_step (o : Options.t) : outcome Options.t :=
  match Options.input o with
  | None => Blocked
  | Some [] => Blocked
  | Some (None :: q) => Done (Options.set_input (Some q) o)
  | Some (Some s :: q) =>
      Done (Options.set_targets (PSlice s) (Options.set_input (Some q) o))
  end.

(** ** pool_grpc.go *)

(** The closure stored in [pool.factory]. *)
Definition factory_body : M (option conn * option error) :=
  target <- nextTarget ;;
  if String.eqb target EmptyString then ret (None, Some errTargets)
  else grpc_DialContext target.

Definition call_factory (f : option factory_fn) : M (option conn * option error) :=
  match f with
  | None => panic NilFuncCall
  | Some DialNextTarget => factory_body
  end.

(** The closure stored in [pool.close]. *)
Definition call_close (f : option close_fn) (v : option conn) : M (option error) :=
  match f with
  | None => panic NilFuncCall
  | Some ConnClose => ClientConn_Close v
  end.

Definition createGrpcIdleConn (c : GRPCPool.t) (cn : option conn) : M ptr :=
  now <- time_Now ;;
  t' <- (if GRPCPool.timeoutType c =? IdleTimeoutType then ret now
         else if GRPCPool.timeoutType c =? FixedTimeoutType then
           r <- rand_Int63n (Z.quot (Milliseconds (GRPCPool.IdleTimeout c)) 2) ;;
           ret (now + wrap64 (- Millisecond * r))
         else ret now) ;;
  alloc (mkIdle cn t').

(** The [for { select { ... } }] of [Get] on the channel [conns] read at
    entry; the recursion is on what is left in its buffer. *)
Fixpoint Get_loop (c : GRPCPool.t) (buf : list (option ptr))
  : M ((option ptr * option error) * list (option ptr)) :=
  match buf with
  | wrapConn :: rest =>
      match wrapConn with
      | None => ret ((None, Some errClosed), rest)
      | Some p =>
          e <- load p ;;
          match Conn e with
          | None => ret ((None, Some errClosed), rest)
          | Some _ =>
              let timeout := GRPCPool.IdleTimeout c in
              if 0 <? timeout then
                now <- time_Now ;;
                if t e + timeout <? now then
                  call_close (GRPCPool.close c) (Conn e) ;;;
                  Get_loop c rest
                else ret ((Some p, None), rest)
              else ret ((Some p, None), rest)
          end
      end
  | [] =>
      r <- call_factory (GRPCPool.factory c) ;;
      match r with
      | (_, Some err) => ret ((None, Some err), [])
      | (cn, None) =>
          p <- createGrpcIdleConn c cn ;;
          ret ((Some p, None), [])
      end
  end.

Definition Get (c : GRPCPool.t) : M ((option ptr * option error) * GRPCPool.t) :=
  match GRPCPool.conns c with
  | None => ret ((None, Some errClosed), c)
  | Some ch =>
      r <- Get_loop c (chan_buf ch) ;;
      ret (fst r, GRPCPool.set_conns (Some (mkChan (chan_cap ch) (snd r))) c)
  end.

Definition Put (c : GRPCPool.t) (wrap : option ptr) : M (option error * GRPCPool.t) :=
  match wrap with
  | None => ret (Some errRejected, c)
  | Some p =>
      e <- load p ;;
      match Conn e with
      | None => ret (Some errRejected, c)
      | Some _ =>
          match GRPCPool.conns c with
          | None =>
              r <- call_close (GRPCPool.close c) (Conn e) ;;
              ret (r, c)
          | Some ch =>
              (if GRPCPool.timeoutType c =? IdleTimeoutType
               then now <- time_Now ;; store_t p now
               else ret tt) ;;;
              if Z.of_nat (length (chan_buf ch)) <? chan_cap ch then
                ret (None, GRPCPool.set_conns
                             (Some (mkChan (chan_cap ch) (chan_buf ch ++ [Some p]))) c)
              else
                r <- call_close (GRPCPool.close c) (Conn e) ;;
                ret (r, c)
          end
      end
  end.

(** [for wrapConn := range conns { closeFun(wrapConn.Conn) }] *)
Fixpoint drain (closeFun : option close_fn) (buf : list (option ptr)) : M unit :=
  match buf with
  | [] => ret tt
  | wrapConn :: rest =>
      match wrapConn with
      | None => panic NilDeref
      | Some p =>
          e <- load p ;;
          call_close closeFun (Conn e) ;;;
          drain closeFun rest
      end
  end.

Definition Close (c : GRPCPool.t) : M (unit * GRPCPool.t) :=
  let conns := GRPCPool.conns c in
  let closeFun := GRPCPool.close c in
  let c' := GRPCPool.mk (GRPCPool.IdleTimeout c) (GRPCPool.timeoutType c)
                        None None None in
  match conns with
  | None => ret (tt, c')
  | Some ch => drain closeFun (chan_buf ch) ;;; ret (tt, c')
  end.

Definition IdleCount (c : GRPCPool.t) : Z :=
  match GRPCPool.conns c with
  | None => 0
  | Some ch => Z.of_nat (length (chan_buf ch))
  end.

(** [pool.conns <- x] outside a [select]: blocks on a full buffer. *)
Definition chan_send (c : GRPCPool.t) (p : ptr) : M GRPCPool.t :=
  match GRPCPool.conns c with
  | None => block
  | Some ch =>
      if Z.of_nat (length (chan_buf ch)) <? chan_cap ch then
        ret (GRPCPool.set_conns
               (Some (mkChan (chan_cap ch) (chan_buf ch ++ [Some p]))) c)
      else block
  end.

(** The body of [for i := 0; i < o.InitCap; i++] with [n] turns left. *)
Fixpoint init_conns (n : nat) (pool : GRPCPool.t)
  : M (option GRPCPool.t * option error) :=
  match n with
  | O => ret (Some pool, None)
  | S n' =>
      r <- call_factory (GRPCPool.factory pool) ;;
      match r with
      | (_, Some err) => Close pool ;;; ret (None, Some err)
      | (cn, None) =>
          p <- createGrpcIdleConn pool cn ;;
          pool' <- chan_send pool p ;;
          init_conns n' pool'
      end
  end.

(** [make(chan *GrpcIdleConn, size)], as the runtime's [makechan] checks
    it on a 64-bit platform: the buffer of [size] pointers of 8 bytes each
    has to fit in [maxAlloc - hchanSize] = 2^48 - 96 bytes, and [size] may
    not be negative; otherwise the call panics.  A size in range is granted:
    the model has no bound on the memory at hand. *)
Definition makechan (size : Z) : M chan :=
  if (size <? 0) || (2 ^ 48 - 96 <? 8 * size) then panic MakechanSize
  else ret (mkChan size []).

Definition NewGRPCPool : M (option GRPCPool.t * option error) :=
  fun w =>
    let o := opts w in
    match validate o with
    | Some err => Done ((None, Some err), w)
    | None =>
        (conns <- makechan (Options.MaxCap o) ;;
         let pool :=
           GRPCPool.mk (Options.IdleTimeout o) (Options.TimeoutType o)
                       (Some conns)
                       (Some DialNextTarget) (Some ConnClose) in
         update ;;; init_conns (Z.to_nat (Options.InitCap o)) pool) w
    end.

End Program.

(** * Definitions used by the statements *)

(** ** The invariant of a pool and the states a client reaches *)

(** An element of the store is a wrapper that exists and holds a
    connection. *)
Definition stored_ok (h : list GrpcIdleConn) (x : option ptr) : Prop :=
  exists p e cn, x = Some p /\ h !! p = Some e /\ Conn e = Some cn.

(** Addresses stay allocated and keep their connection. *)
Definition heap_ext (h h' : list GrpcIdleConn) : Prop :=
  forall p e, h !! p = Some e -> exists e', h' !! p = Some e' /\ Conn e' = Conn e.

(** The bound handed to [rand.Int63n] under FixedTimeoutType is positive. *)
Definition jitter_ok (c : GRPCPool.t) : Prop :=
  GRPCPool.timeoutType c = FixedTimeoutType ->
  0 < Z.quot (Milliseconds (GRPCPool.IdleTimeout c)) 2.

(** An open pool has both closures, a store within its capacity that
    holds live wrappers only, and a jitter bound that [rand.Int63n]
    accepts.  Nothing is asked of a closed pool. *)
Definition pool_inv (c : GRPCPool.t) (w : World) : Prop :=
  match GRPCPool.conns c with
  | None => True
  | Some ch =>
      GRPCPool.factory c = Some DialNextTarget
      /\ GRPCPool.close c = Some ConnClose
      /\ Z.of_nat (length (chan_buf ch)) <= chan_cap ch
      /\ Forall (stored_ok (heap w)) (chan_buf ch)
      /\ jitter_ok c
  end.

(** The channel of an open pool has capacity [m]. *)
Definition cap_is (m : Z) (c : GRPCPool.t) : Prop :=
  forall ch, GRPCPool.conns c = Some ch -> chan_cap ch = m.

(** The zero [time.Time] of a wrapper a client builds itself: January 1,
    year 1, in nanoseconds before the Unix epoch. *)
Definition zeroTime : Time := - 62135596800 * Second.

(** What a client does with a pool. *)
Inductive call : Type :=
| CallGet
| CallPut (wrap : option ptr)
| CallClose
| CallIdleCount
| CallWrap (cn : option conn).   (* [&GrpcIdleConn{Conn: cn}] in client code *)

Definition run_call (E : Env) (c : GRPCPool.t) (k : call) : M GRPCPool.t :=
  match k with
  | CallGet => r <- Get E c ;; ret (snd r)
  | CallPut wrap => r <- Put E c wrap ;; ret (snd r)
  | CallClose => r <- Close E c ;; ret (snd r)
  | CallIdleCount => ret c
  | CallWrap cn => alloc (mkIdle cn zeroTime) ;;; ret c
  end.

(** The pools a client can hold: the one [NewGRPCPool] returned for the
    options of [w0], after any calls that returned. *)
Inductive reachable (E : Env) (w0 : World) : GRPCPool.t -> World -> Prop :=
| reach_new c w :
    NewGRPCPool E w0 = Done ((Some c, None), w) ->
    reachable E w0 c w
| reach_call c w k c' w' :
    reachable E w0 c w ->
    run_call E c k w = Done (c', w') ->
    reachable E w0 c' w'.

(** ** Expiry of stored wrappers *)

(** [all_expired E c h n pre cns]: the wrappers [pre], checked one after
    the other starting at the [n]-th reading of the clock, hold the
    connections [cns] and are each older than the pool's IdleTimeout when
    checked. *)
Fixpoint all_expired (E : Env) (c : GRPCPool.t) (h : list GrpcIdleConn)
    (n : nat) (pre : list ptr) (cns : list conn) : Prop :=
  match pre, cns with
  | [], [] => True
  | q :: pre', cn :: cns' =>
      (exists e, h !! q = Some e /\ Conn e = Some cn
                 /\ clock E n - t e > GRPCPool.IdleTimeout c)
      /\ all_expired E c h (S n) pre' cns'
  | _, _ => False
  end.

(** The wrapper [p] holds a connection and is not expired at the [n]-th
    reading of the clock: now - timestamp <= IdleTimeout. *)
Definition not_expired (E : Env) (c : GRPCPool.t) (h : list GrpcIdleConn)
    (n : nat) (p : ptr) : Prop :=
  exists e cn, h !! p = Some e /\ Conn e = Some cn
               /\ clock E n - t e <= GRPCPool.IdleTimeout c.

(** The connections held by the wrappers of a store, in order. *)
Definition store_conns (h : list GrpcIdleConn) (buf : list (option ptr)) : list conn :=
  omap (fun x : option ptr =>
          match x with
          | Some p => match h !! p with Some e => Conn e | None => None end
          | None => None
          end) buf.

(** The same environment, except that closing a connection never fails. *)
Definition close_succeeds (E : Env) : Env :=
  mkEnv (clock E) (rnd E) (dialer E) (fun _ => None).

(** ** The validation condition in the words of the specification *)

(** An empty target list and non-positive timeouts are invalid. *)
Definition spec_invalid (o : Options.t) : bool :=
  (len (Options.InitTargets o) =? 0)
  || (Options.InitCap o <=? 0)
  || (Options.MaxCap o <=? 0)
  || (Options.MaxCap o <? Options.InitCap o)
  || negb ((Options.TimeoutType o =? IdleTimeoutType)
           || (Options.TimeoutType o =? FixedTimeoutType))
  || (Options.DialTimeout o <=? 0)
  || (Options.ReadTimeout o <=? 0)
  || (Options.WriteTimeout o <=? 0).

(** ** Concrete configurations, environments and runs *)

(** A configuration in the shape of the README's example, with one initial
    connection in a store of one. *)
Definition example_options (ts : slice) (tt : TimeoutType) (idle : Duration) : Options.t :=
  Options.mk PNil None ts 1 1 tt (5 * Second) idle (5 * Second) (5 * Second).

Definition readme_options : Options.t :=
  example_options (Some ["127.0.0.1:8080"%string]) IdleTimeoutType (60 * Second).

Definition options_empty_targets : Options.t :=
  example_options (Some []) IdleTimeoutType (60 * Second).

Definition options_negative_dial : Options.t :=
  Options.mk PNil None (Some ["127.0.0.1:8080"%string]) 1 1 IdleTimeoutType
    (- Second) (60 * Second) (5 * Second) (5 * Second).

(** One initial connection in a store of three. *)
Definition roomy_options : Options.t :=
  Options.mk PNil None (Some ["127.0.0.1:8080"%string]) 1 3 IdleTimeoutType
    (5 * Second) (60 * Second) (5 * Second) (5 * Second).

(** The world before anything has run. *)
Definition world_of (o : Options.t) : World := mkWorld o [] 0 0 0 [].

(** A clock at a fixed instant, a random source that always draws [v], a
    dialer that hands out connection [k] at the [k]-th dial, and a close
    that fails with [e] on every connection [c] with [fails c]. *)
Definition env_of (now : Time) (v : Z) (fails : conn -> bool) (e : error) : Env :=
  mkEnv (fun _ => now) (fun _ => v) (fun k _ => inl k)
        (fun c => if fails c then Some e else None).

Definition quiet_env : Env :=
  env_of 1000 7 (fun _ => false) (errExternal "close failed").

Definition failing_env : Env :=
  env_of 1000 7 (fun c => Nat.eqb c 1) (errExternal "close failed").

Definition aged_env : Env :=
  env_of (100 * Second) 7 (fun _ => false) (errExternal "close failed").

(** The pool [NewGRPCPool] builds before it fills the store. *)
Definition pool_of (o : Options.t) : GRPCPool.t :=
  GRPCPool.mk (Options.IdleTimeout o) (Options.TimeoutType o)
              (Some (mkChan (Options.MaxCap o) []))
              (Some DialNextTarget) (Some ConnClose).

(** FixedTimeoutType with a timeout of 3ms. *)
Definition pool_3ms : GRPCPool.t :=
  pool_of (example_options (Some ["127.0.0.1:8080"%string]) FixedTimeoutType (3 * Millisecond)).

(** The pool and the world [NewGRPCPool] leaves for [readme_options]. *)
Definition readme_pool : GRPCPool.t :=
  GRPCPool.mk (60 * Second) IdleTimeoutType (Some (mkChan 1 [Some 0%nat]))
              (Some DialNextTarget) (Some ConnClose).

Definition readme_world : World :=
  mkWorld (Options.set_targets PInitTargets readme_options)
          [mkIdle (Some 0%nat) 1000] 1 1 1 [].

(** [readme_pool] after [Close]. *)
Definition closed_pool : GRPCPool.t :=
  GRPCPool.mk (60 * Second) IdleTimeoutType None None None.

(** The pool and the world [NewGRPCPool] leaves for [roomy_options]. *)
Definition roomy_pool : GRPCPool.t :=
  GRPCPool.mk (60 * Second) IdleTimeoutType (Some (mkChan 3 [Some 0%nat]))
              (Some DialNextTarget) (Some ConnClose).

Definition roomy_world : World :=
  mkWorld (Options.set_targets PInitTargets roomy_options)
          [mkIdle (Some 0%nat) 1000] 1 1 1 [].

(** A store of two, read at 100s ([aged_env]): the first wrapper was
    stamped at 0, the second at 90s; the timeout is 60s. *)
Definition aged_pool : GRPCPool.t :=
  GRPCPool.mk (60 * Second) IdleTimeoutType
              (Some (mkChan 2 [Some 0%nat; Some 1%nat]))
              (Some DialNextTarget) (Some ConnClose).

Definition aged_world : World :=
  mkWorld (Options.set_targets PInitTargets roomy_options)
          [mkIdle (Some 0%nat) 0; mkIdle (Some 1%nat) (90 * Second)]
          2 2 2 [].

(** A client that fills a store of one and releases a second connection:
    construct, [Get] twice, [Put] both wrappers back.  The result is what
    the second [Put] returned and the IdleCount after it. *)
Definition overflow_scenario (E : Env) : M (option error * Z) :=
  r0 <- NewGRPCPool E ;;
  match r0 with
  | (Some c0, _) =>
      g1 <- Get E c0 ;;
      g2 <- Get E (snd g1) ;;
      p1 <- Put E (snd g2) (fst (fst g1)) ;;
      p2 <- Put E (snd p1) (fst (fst g2)) ;;
      ret (fst p2, IdleCount (snd p2))
  | (None, _) => ret (None, 0)
  end.

(** ** The listener's loop, and options a client fills in *)

(** The goroutine of [update] for [fuel] turns of its [range] loop, or
    until nothing can be received. *)
Fixpoint listener_run (fuel : nat) (o : Options.t) : Options.t :=
  match fuel with
  | O => o
  | S k =>
      match listener_step o with
      | Done o' => listener_run k o'
      | Panic _ => o
      | Blocked => o
      end
  end.

(** [o.InitTargets = ts] in client code. *)
Definition with_InitTargets (ts : slice) (o : Options.t) : Options.t :=
  Options.mk (Options.targets o) (Options.input o) ts
    (Options.InitCap o) (Options.MaxCap o) (Options.TimeoutType o)
    (Options.DialTimeout o) (Options.IdleTimeout o)
    (Options.ReadTimeout o) (Options.WriteTimeout o).

(** A dialer that never fails. *)
Definition always_dials (E : Env) : Prop :=
  forall (k : nat) (target : string), exists c, dialer E k target = inl c.

(** The timestamp [Put] leaves in a wrapper stamped [t0] when the clock
    reads [now]. *)
Definition stamp_on_Put (c : GRPCPool.t) (t0 now : Time) : Time :=
  if GRPCPool.timeoutType c =? IdleTimeoutType then now else t0.

(** The clock readings [Put] takes. *)
Definition ticks_of_Put (c : GRPCPool.t) : nat :=
  if GRPCPool.timeoutType c =? IdleTimeoutType then 1%nat else 0%nat.

(** An empty store of two, and a wrapper a client holds. *)
Definition lent_pool : GRPCPool.t :=
  GRPCPool.mk (60 * Second) IdleTimeoutType (Some (mkChan 2 []))
              (Some DialNextTarget) (Some ConnClose).

Definition lent_world : World :=
  mkWorld (Options.set_targets PInitTargets roomy_options)
          [mkIdle (Some 0%nat) 1000] 1 1 1 [].

(** A clock that reads [step * k] at its [k]-th reading. *)
Definition ticking_env (step : Z) : Env :=
  mkEnv (fun k => step * Z.of_nat k) (fun _ => 7) (fun k _ => inl k)
        (fun _ => None).

(** Two initial connections in a store of three, and a dialer whose second
    dial fails. *)
Definition pair_options : Options.t :=
  Options.mk PNil None (Some ["127.0.0.1:8080"%string]) 2 3 IdleTimeoutType
    (5 * Second) (60 * Second) (5 * Second) (5 * Second).

Definition flaky_env : Env :=
  mkEnv (fun _ => 1000) (fun _ => 7)
        (fun k _ => if Nat.eqb k 1 then inr (errExternal "dial failed") else inl k)
        (fun _ => None).

(** The world [NewGRPCPool] leaves for [pair_options] under [flaky_env]. *)
Definition aborted_world : World :=
  mkWorld (Options.set_targets PInitTargets pair_options)
          [mkIdle (Some 0%nat) 1000] 1 2 2 [0%nat].

(** The largest MaxCap an [int] of 64 bits holds. *)
Definition huge_options : Options.t :=
  Options.mk PNil None (Some ["127.0.0.1:8080"%string]) 1 (2 ^ 63 - 1)
    IdleTimeoutType (5 * Second) (60 * Second) (5 * Second) (5 * Second).

(** The element [nextTarget] picks from a target list that is not empty:
    the next value of the random source, reduced by the length. *)
Definition picked_target (E : Env) (w : World) (ts : slice) : string :=
  index ts (Z.rem (rnd E (draws w) mod 2 ^ 63) (len ts)).

(** The clock of [aged_env] a hundred seconds later: both wrappers of
    [aged_pool] are expired. *)
Definition late_env : Env :=
  env_of (200 * Second) 7 (fun _ => false) (errExternal "close failed").

(** * Properties *)

(** ** Stepping through the monad *)

Lemma bind_Done {A B} (m : M A) (k : A -> M B) w r :
  bind m k w = Done r ->
  exists a w1, m w = Done (a, w1) /\ k a w1 = Done r.
Proof.
  unfold bind. destruct (m w) as [[a w1]| |]; intros H; try discriminate.
  exists a, w1. split; [reflexivity | exact H].
Qed.

Lemma bind_eq {A B} (m : M A) (k : A -> M B) w a w1 :
  m w = Done (a, w1) -> bind m k w = k a w1.
Proof. intros H. unfold bind. rewrite H. reflexivity. Qed.

Lemma wrap64_small z : - 2 ^ 63 <= z < 2 ^ 63 -> wrap64 z = z.
Proof.
  intros H. unfold wrap64. rewrite Z.mod_small; lia.
Qed.

Lemma bind_ext {A B} (m : M A) (k k' : A -> M B) w :
  (forall a w1, k a w1 = k' a w1) -> bind m k w = bind m k' w.
Proof.
  intros H. unfold bind. destruct (m w) as [[a w1]| |]; auto.
Qed.

Ltac mstep H :=
  let a := fresh "a" in
  let w1 := fresh "w" in
  let Ha := fresh "Hstep" in
  apply bind_Done in H; destruct H as (a & w1 & Ha & H).

Lemma load_Done p w e w' :
  load p w = Done (e, w') -> w' = w /\ heap w !! p = Some e.
Proof.
  unfold load. destruct (heap w !! p); [| discriminate].
  intros H. inversion H; subst. auto.
Qed.

(** ** Configuration validation *)

(** C3, as stated, fails: a target list of length zero that is not nil
    passes [validate], and so does a negative dial timeout, although the
    stated condition holds of both. *)
Lemma validate_accepts_empty_and_negative :
  (spec_invalid options_empty_targets = true
   /\ validate options_empty_targets = None)
  /\ (spec_invalid options_negative_dial = true
      /\ validate options_negative_dial = None).
Proof. repeat split; reflexivity. Qed.

(** C3, amended: [validate] returns [errInvalid] exactly when the initial
    target list is nil, or InitCap <= 0, or MaxCap <= 0, or InitCap > MaxCap,
    or the policy is neither of the two recognized values, or one of
    DialTimeout, ReadTimeout, WriteTimeout equals zero; otherwise it returns
    no error. *)
Theorem validate_exact (o : Options.t) :
  (validate o = Some errInvalid <->
     Options.InitTargets o = None
     \/ Options.InitCap o <= 0
     \/ Options.MaxCap o <= 0
     \/ Options.InitCap o > Options.MaxCap o
     \/ (Options.TimeoutType o <> IdleTimeoutType
         /\ Options.TimeoutType o <> FixedTimeoutType)
     \/ Options.DialTimeout o = 0
     \/ Options.ReadTimeout o = 0
     \/ Options.WriteTimeout o = 0)
  /\ (validate o = Some errInvalid \/ validate o = None).
Proof.
  unfold validate, IdleTimeoutType, FixedTimeoutType.
  destruct o as [tg inp it ic mc tt dt idt rt wt]; cbn.
  destruct it as [l|]; cbn.
  2:{ split; [split; auto | auto]. }
  destruct (Z.leb_spec ic 0); cbn.
  { split; [split; auto | auto]. }
  destruct (Z.leb_spec mc 0); cbn.
  { split; [split; auto | auto]. }
  destruct (Z.ltb_spec mc ic); cbn.
  { split; [split; intros; auto; right; right; right; left; lia | auto]. }
  destruct (Z.eqb_spec tt 1); cbn.
  - destruct (Z.eqb_spec dt 0); cbn; [split; [split; auto 10 | auto] |].
    destruct (Z.eqb_spec rt 0); cbn; [split; [split; auto 10 | auto] |].
    destruct (Z.eqb_spec wt 0); cbn; [split; [split; auto 10 | auto] |].
    split; [| auto]. split; [discriminate |].
    intros [?|[?|[?|[?|[[? ?]|[?|[?|?]]]]]]]; try discriminate; try lia; congruence.
  - destruct (Z.eqb_spec tt 2); cbn.
    + destruct (Z.eqb_spec dt 0); cbn; [split; [split; auto 10 | auto] |].
      destruct (Z.eqb_spec rt 0); cbn; [split; [split; auto 10 | auto] |].
      destruct (Z.eqb_spec wt 0); cbn; [split; [split; auto 10 | auto] |].
      split; [| auto]. split; [discriminate |].
      intros [?|[?|[?|[?|[[? ?]|[?|[?|?]]]]]]]; try discriminate; try lia; congruence.
    + split; [split; auto 10 | auto].
Qed.

(** ** Timestamps of new entries *)

(** C4: under FixedTimeoutType with IdleTimeout = 0 the creation of an
    entry does not succeed: [rand.Int63n] is called with 0 and panics, for
    every connection in every world. *)
Theorem createGrpcIdleConn_zero_timeout_panics
    (E : Env) (c : GRPCPool.t) (cn : option conn) (w : World) :
  GRPCPool.timeoutType c = FixedTimeoutType ->
  GRPCPool.IdleTimeout c = 0 ->
  createGrpcIdleConn E c cn w = Panic Int63nArg.
Proof.
  intros Htt Hz. unfold createGrpcIdleConn.
  rewrite Htt, Hz. reflexivity.
Qed.

Lemma createGrpcIdleConn_zero_timeout_witness :
  validate (example_options (Some ["127.0.0.1:8080"%string]) FixedTimeoutType 0) = None
  /\ createGrpcIdleConn quiet_env
       (pool_of (example_options (Some ["127.0.0.1:8080"%string]) FixedTimeoutType 0))
       (Some 0%nat)
       (world_of (example_options (Some ["127.0.0.1:8080"%string]) FixedTimeoutType 0))
     = Panic Int63nArg.
Proof.
  split; [reflexivity |].
  apply createGrpcIdleConn_zero_timeout_panics; reflexivity.
Defined.

(** C9: construction from a configuration that [validate] accepts
    (FixedTimeoutType, IdleTimeout = 0, one reachable target) neither
    returns a pool nor an error: the first entry's timestamping panics. *)
Theorem NewGRPCPool_fixed_zero_timeout_panics :
  validate (example_options (Some ["127.0.0.1:8080"%string]) FixedTimeoutType 0) = None
  /\ NewGRPCPool quiet_env
       (world_of (example_options (Some ["127.0.0.1:8080"%string]) FixedTimeoutType 0))
     = Panic Int63nArg.
Proof. split; reflexivity. Qed.

Lemma createGrpcIdleConn_fixed (E : Env) (c : GRPCPool.t) (cn : option conn) (w : World) :
  GRPCPool.timeoutType c = FixedTimeoutType ->
  0 < Z.quot (Milliseconds (GRPCPool.IdleTimeout c)) 2 ->
  createGrpcIdleConn E c cn w =
    Done (length (heap w),
          mkWorld (opts w)
            (heap w ++ [mkIdle cn
               (clock E (ticks w)
                + wrap64 (- Millisecond
                          * ((rnd E (draws w) mod 2 ^ 63)
                             mod Z.quot (Milliseconds (GRPCPool.IdleTimeout c)) 2)))])
            (S (ticks w)) (S (draws w)) (dials w) (closed w)).
Proof.
  intros Htt Hn. unfold createGrpcIdleConn. rewrite Htt. cbn.
  unfold bind, time_Now, rand_Int63n.
  destruct (Z.leb_spec (Z.quot (Milliseconds (GRPCPool.IdleTimeout c)) 2) 0); [lia |].
  reflexivity.
Qed.

Lemma createGrpcIdleConn_idle (E : Env) (c : GRPCPool.t) (cn : option conn) (w : World) :
  GRPCPool.timeoutType c = IdleTimeoutType ->
  createGrpcIdleConn E c cn w =
    Done (length (heap w),
          mkWorld (opts w) (heap w ++ [mkIdle cn (clock E (ticks w))])
            (S (ticks w)) (draws w) (dials w) (closed w)).
Proof.
  intros Htt. unfold createGrpcIdleConn. rewrite Htt. reflexivity.
Qed.

(** C5, as stated, fails: with IdleTimeout = 3ms the offset 1ms lies in
    [[0, IdleTimeout/2)], yet no run stamps an entry with the creation
    instant minus 1ms (the only offset drawn is 0). *)
Lemma jitter_window_not_exact :
  exists off : Z,
    (0 <= off /\ 2 * off < GRPCPool.IdleTimeout pool_3ms)
    /\ forall (E : Env) (cn : option conn) (w w' : World) (p : ptr),
         createGrpcIdleConn E pool_3ms cn w = Done (p, w') ->
         heap w' !! p <> Some (mkIdle cn (clock E (ticks w) - off)).
Proof.
  exists Millisecond. split; [cbn; unfold Millisecond; lia |].
  intros E cn w w' p H.
  rewrite createGrpcIdleConn_fixed in H by (cbn; reflexivity || lia).
  inversion H; subst; clear H. cbn [heap].
  rewrite lookup_app_r by lia. rewrite Nat.sub_diag. cbn.
  change (Z.quot (Milliseconds (3 * Millisecond)) 2) with 1.
  rewrite Z.mod_1_r. cbn. unfold Millisecond.
  change (wrap64 (- (1000000) * 0)) with 0.
  intros Heq. inversion Heq. lia.
Qed.

(** C5, amended: under FixedTimeoutType with IdleTimeout of at least 2ms
    (and within int64), a new entry's timestamp is the creation instant minus
    [k] whole milliseconds, where [k] is the random draw reduced into
    [[0, n)] for [n] = (IdleTimeout in whole milliseconds) / 2; that offset
    lies in [[0, IdleTimeout/2)], and every such [k] is drawn by some random
    source.  Under IdleTimeoutType the timestamp is the creation instant. *)
Theorem createGrpcIdleConn_timestamp
    (E : Env) (c : GRPCPool.t) (cn : option conn) (w : World) :
  (GRPCPool.timeoutType c = FixedTimeoutType ->
   2 * Millisecond <= GRPCPool.IdleTimeout c < 2 ^ 63 ->
   let n := Z.quot (Milliseconds (GRPCPool.IdleTimeout c)) 2 in
   let k := (rnd E (draws w) mod 2 ^ 63) mod n in
   createGrpcIdleConn E c cn w =
     Done (length (heap w),
           mkWorld (opts w)
             (heap w ++ [mkIdle cn (clock E (ticks w) - k * Millisecond)])
             (S (ticks w)) (S (draws w)) (dials w) (closed w))
   /\ 0 <= k < n
   /\ 0 <= 2 * (k * Millisecond) < GRPCPool.IdleTimeout c
   /\ forall k0, 0 <= k0 < n -> rnd E (draws w) = k0 -> k = k0)
  /\ (GRPCPool.timeoutType c = IdleTimeoutType ->
      createGrpcIdleConn E c cn w =
        Done (length (heap w),
              mkWorld (opts w) (heap w ++ [mkIdle cn (clock E (ticks w))])
                (S (ticks w)) (draws w) (dials w) (closed w))).
Proof.
  split; [| apply createGrpcIdleConn_idle].
  intros Htt Hd n k. unfold Millisecond in *.
  assert (Hms : 2 <= Milliseconds (GRPCPool.IdleTimeout c)).
  { unfold Milliseconds. apply Z.quot_le_lower_bound; lia. }
  assert (Hms' : Milliseconds (GRPCPool.IdleTimeout c) * 1000000
                 <= GRPCPool.IdleTimeout c).
  { unfold Milliseconds. rewrite Z.mul_comm. apply Z.mul_quot_le; lia. }
  assert (Hn : 1 <= n).
  { unfold n. apply Z.quot_le_lower_bound; lia. }
  assert (Hn' : 2 * n <= Milliseconds (GRPCPool.IdleTimeout c)).
  { unfold n. apply Z.mul_quot_le; lia. }
  assert (Hk : 0 <= k < n).
  { unfold k. apply Z.mod_pos_bound. lia. }
  split.
  - rewrite createGrpcIdleConn_fixed by (assumption || fold n; lia).
    fold n. fold k. rewrite wrap64_small by (unfold Millisecond; lia).
    replace (clock E (ticks w) + - Millisecond * k)
      with (clock E (ticks w) - k * 1000000) by (unfold Millisecond; lia).
    reflexivity.
  - split; [exact Hk |]. split; [lia |].
    intros k0 Hk0 Hr. unfold k. rewrite Hr.
    rewrite (Z.mod_small k0 (2 ^ 63)) by lia.
    apply Z.mod_small. lia.
Qed.

Lemma createGrpcIdleConn_timestamp_witness :
  let c := pool_of (example_options (Some ["127.0.0.1:8080"%string])
                      FixedTimeoutType (60 * Second)) in
  let w := world_of (example_options (Some ["127.0.0.1:8080"%string])
                       FixedTimeoutType (60 * Second)) in
  createGrpcIdleConn quiet_env c (Some 0%nat) w =
    Done (0%nat,
          mkWorld (opts w) [mkIdle (Some 0%nat) (1000 - 7 * Millisecond)]
                  1 1 0 []).
Proof.
  intros c w.
  destruct (createGrpcIdleConn_timestamp quiet_env c (Some 0%nat) w) as [Hf _].
  destruct Hf as [Heq _]; [reflexivity | cbn; unfold Millisecond, Second; lia |].
  exact Heq.
Defined.

(** ** After [Close] *)

Lemma drain_Done (E : Env) (f : option close_fn) (buf : list (option ptr)) w w' :
  drain E f buf w = Done (tt, w') ->
  opts w' = opts w /\ heap w' = heap w.
Proof.
  revert w. induction buf as [|x buf IH]; intros w H; cbn in H.
  - inversion H; subst. auto.
  - destruct x as [p|]; [| discriminate].
    apply bind_Done in H. destruct H as (e & w1 & Hl & H).
    unfold load in Hl. destruct (heap w !! p); [| discriminate].
    inversion Hl; subst; clear Hl.
    apply bind_Done in H. destruct H as (r & w2 & Hc & H).
    apply IH in H. destruct H as [Ho Hh].
    unfold call_close, ClientConn_Close, panic in Hc.
    destruct f as [[]|]; [| discriminate].
    destruct (Conn _); [| discriminate].
    inversion Hc; subst. cbn in *. auto.
Qed.

Lemma Close_Done (E : Env) (c c' : GRPCPool.t) w w' :
  Close E c w = Done ((tt, c'), w') ->
  c' = GRPCPool.mk (GRPCPool.IdleTimeout c) (GRPCPool.timeoutType c) None None None
  /\ opts w' = opts w /\ heap w' = heap w.
Proof.
  unfold Close. destruct (GRPCPool.conns c) as [ch|].
  - intros H. apply bind_Done in H. destruct H as ([] & w1 & Hd & H).
    inversion H; subst. apply drain_Done in Hd. tauto.
  - intros H. inversion H; subst. auto.
Qed.

(** After [Close] every [Get] fails with [errClosed]. *)
Lemma Get_after_Close (E : Env) (c c' : GRPCPool.t) w w' w2 :
  Close E c w = Done ((tt, c'), w') ->
  Get E c' w2 = Done (((None, Some errClosed), c'), w2).
Proof.
  intros H. apply Close_Done in H. destruct H as (-> & _). reflexivity.
Qed.

(** [Close] on a closed pool returns at once and changes nothing. *)
Lemma Close_after_Close (E : Env) (c c' : GRPCPool.t) w w' w2 :
  Close E c w = Done ((tt, c'), w') ->
  Close E c' w2 = Done ((tt, c'), w2).
Proof.
  intros H. apply Close_Done in H. destruct H as (-> & _). reflexivity.
Qed.

(** C1: after [Close] has returned, [Put] of a wrapper that holds a
    connection does not close it and does not return: [Close] has set the
    pool's [close] function to nil, and [Put] calls it. *)
Theorem Put_after_Close_panics
    (E : Env) (c c' : GRPCPool.t) (w w' w2 : World)
    (p : ptr) (e : GrpcIdleConn) (cn : conn) :
  Close E c w = Done ((tt, c'), w') ->
  heap w2 !! p = Some e ->
  Conn e = Some cn ->
  Put E c' (Some p) w2 = Panic NilFuncCall.
Proof.
  intros H Hp Hc. apply Close_Done in H. destruct H as (-> & _).
  unfold Put, bind, load. rewrite Hp, Hc. reflexivity.
Qed.

Lemma Put_after_Close_witness :
  Close quiet_env readme_pool readme_world
    = Done ((tt, closed_pool), set_closed [0%nat] readme_world)
  /\ Put quiet_env closed_pool (Some 0%nat) (set_closed [0%nat] readme_world)
     = Panic NilFuncCall.
Proof.
  split; [reflexivity |].
  apply (Put_after_Close_panics quiet_env readme_pool closed_pool readme_world
           (set_closed [0%nat] readme_world) (set_closed [0%nat] readme_world)
           0%nat (mkIdle (Some 0%nat) 1000) 0%nat); reflexivity.
Defined.

(** ** What each step leaves of the world *)

Lemma factory_body_Done (E : Env) w r w' :
  factory_body E w = Done (r, w') ->
  heap w' = heap w /\ opts w' = opts w /\ closed w' = closed w
  /\ ticks w' = ticks w
  /\ ((exists err, r = (None, Some err)) \/ (exists cn, r = (Some cn, None))).
Proof.
  unfold factory_body, bind, nextTarget.
  destruct (deref_targets (opts w)) as [ts| |]; try discriminate.
  destruct (len ts <=? 0).
  - cbn. intros H. inversion H; subst. eauto 10.
  - unfold bind, rand_Int, rand_Int63, ret.
    destruct (String.eqb _ _).
    + intros H. inversion H; subst. cbn. eauto 10.
    + unfold grpc_DialContext. cbn.
      destruct (dialer E _ _); intros H; inversion H; subst; cbn; eauto 10.
Qed.

Lemma createGrpcIdleConn_Done (E : Env) (c : GRPCPool.t) cn w p w' :
  createGrpcIdleConn E c cn w = Done (p, w') ->
  p = length (heap w)
  /\ (exists t', heap w' = heap w ++ [mkIdle cn t'])
  /\ opts w' = opts w /\ closed w' = closed w
  /\ (GRPCPool.timeoutType c = FixedTimeoutType ->
      0 < Z.quot (Milliseconds (GRPCPool.IdleTimeout c)) 2).
Proof.
  unfold createGrpcIdleConn.
  destruct (Z.eqb_spec (GRPCPool.timeoutType c) IdleTimeoutType) as [Hi|Hi].
  - cbn. intros H. inversion H; subst. cbn.
    repeat split; eauto. rewrite Hi. discriminate.
  - destruct (Z.eqb_spec (GRPCPool.timeoutType c) FixedTimeoutType) as [Hf|Hf].
    + unfold bind, time_Now, rand_Int63n.
      destruct (Z.leb_spec (Z.quot (Milliseconds (GRPCPool.IdleTimeout c)) 2) 0);
        cbn; [discriminate |].
      intros Hd. inversion Hd; subst. cbn. repeat split; eauto.
    + cbn. intros H. inversion H; subst. cbn.
      repeat split; eauto. intros; contradiction.
Qed.

Lemma call_close_Done (E : Env) f v w r w' :
  call_close E f v w = Done (r, w') ->
  exists cn, f = Some ConnClose /\ v = Some cn /\ r = close_result E cn
             /\ w' = set_closed (closed w ++ [cn]) w.
Proof.
  unfold call_close, ClientConn_Close, panic.
  destruct f as [[]|]; [| discriminate].
  destruct v as [cn|]; [| discriminate].
  intros H. inversion H; subst. eauto.
Qed.

(** ** The invariant of a pool *)

Lemma heap_ext_refl h : heap_ext h h.
Proof. intros p e H. eauto. Qed.

Lemma heap_ext_trans h1 h2 h3 : heap_ext h1 h2 -> heap_ext h2 h3 -> heap_ext h1 h3.
Proof.
  intros H12 H23 p e H. destruct (H12 p e H) as (e2 & H2 & Hc2).
  destruct (H23 p e2 H2) as (e3 & H3 & Hc3). exists e3. split; congruence.
Qed.

Lemma heap_ext_app h l : heap_ext h (h ++ l).
Proof.
  intros p e H. exists e. split; [| reflexivity].
  rewrite lookup_app_l; [exact H |]. eapply lookup_lt_Some; eauto.
Qed.

Lemma heap_ext_store (h : list GrpcIdleConn) p e0 now :
  h !! p = Some e0 -> heap_ext h (<[p := mkIdle (Conn e0) now]> h).
Proof.
  intros H0 q e H. destruct (Nat.eq_dec p q) as [->|Hne].
  - exists (mkIdle (Conn e0) now). split.
    + apply list_lookup_insert_eq. eapply lookup_lt_Some; eauto.
    + cbn. congruence.
  - exists e. split; [| reflexivity]. rewrite list_lookup_insert_ne; auto.
Qed.

Lemma stored_ok_ext h h' x : heap_ext h h' -> stored_ok h x -> stored_ok h' x.
Proof.
  intros Hext (p & e & cn & -> & Hp & Hc).
  destruct (Hext p e Hp) as (e' & Hp' & Hc').
  exists p, e', cn.
  split; [reflexivity | split; [exact Hp' | rewrite Hc'; exact Hc]].
Qed.

Lemma Forall_stored_ok_ext h h' l :
  heap_ext h h' -> Forall (stored_ok h) l -> Forall (stored_ok h') l.
Proof.
  intros Hext HF. eapply Forall_impl; [exact HF |].
  intros x. apply stored_ok_ext, Hext.
Qed.

(** [Get_loop] reads the policy, the timeout and the closures of the pool,
    not its channel. *)
Lemma Get_loop_set_conns (E : Env) (c : GRPCPool.t) x buf :
  Get_loop E (GRPCPool.set_conns x c) buf = Get_loop E c buf.
Proof.
  induction buf as [|y buf IH]; cbn; [reflexivity |].
  destruct y as [p|]; [| reflexivity].
  rewrite IH. reflexivity.
Qed.

Lemma Get_loop_Done (E : Env) (c : GRPCPool.t) buf w r rest w' :
  Get_loop E c buf w = Done ((r, rest), w') ->
  heap_ext (heap w) (heap w')
  /\ (exists pre, buf = pre ++ rest)
  /\ opts w' = opts w.
Proof.
  revert w. induction buf as [|x buf IH]; intros w H; cbn in H.
  - mstep H. destruct (GRPCPool.factory c) as [[]|]; [| discriminate].
    cbn in Hstep. apply factory_body_Done in Hstep.
    destruct Hstep as (Hh & Ho & _ & _ & _).
    destruct a as [cn [err|]].
    + inversion H; subst. rewrite Hh.
      split; [apply heap_ext_refl |]. split; [exists []; reflexivity | exact Ho].
    + mstep H. apply createGrpcIdleConn_Done in Hstep.
      destruct Hstep as (_ & (t' & Hh') & Ho' & _).
      inversion H; subst. rewrite Hh', Hh.
      split; [apply heap_ext_app |]. split; [exists []; reflexivity | congruence].
  - destruct x as [p|].
    2:{ inversion H; subst. split; [apply heap_ext_refl |].
        split; [exists [None]; reflexivity | reflexivity]. }
    mstep H. apply load_Done in Hstep. destruct Hstep as [-> Hp].
    destruct (Conn a) as [cn|].
    2:{ inversion H; subst. split; [apply heap_ext_refl |].
        split; [exists [Some p]; reflexivity | reflexivity]. }
    destruct (0 <? GRPCPool.IdleTimeout c).
    2:{ inversion H; subst. split; [apply heap_ext_refl |].
        split; [exists [Some p]; reflexivity | reflexivity]. }
    mstep H. unfold time_Now in Hstep. inversion Hstep; subst; clear Hstep.
    destruct (t a + GRPCPool.IdleTimeout c <? clock E (ticks w)).
    2:{ inversion H; subst. split; [apply heap_ext_refl |].
        split; [exists [Some p]; reflexivity | reflexivity]. }
    mstep H. apply call_close_Done in Hstep.
    destruct Hstep as (cn' & _ & _ & _ & ->).
    apply IH in H. cbn in H. destruct H as (Hext & (pre & ->) & Ho).
    split; [exact Hext |]. split; [exists (Some p :: pre); reflexivity | exact Ho].
Qed.

Lemma Get_inv (E : Env) (c c' : GRPCPool.t) w w' r :
  pool_inv c w ->
  Get E c w = Done ((r, c'), w') ->
  pool_inv c' w'
  /\ (forall m, cap_is m c -> cap_is m c')
  /\ IdleCount c' <= IdleCount c
  /\ heap_ext (heap w) (heap w').
Proof.
  unfold Get, pool_inv, cap_is, IdleCount.
  destruct (GRPCPool.conns c) as [ch|] eqn:Hch.
  - intros (Hf & Hc & Hcap & Hst & Hj) H. mstep H.
    destruct a as [r0 rest]. apply Get_loop_Done in Hstep.
    destruct Hstep as (Hext & (pre & Hpre) & _).
    inversion H; subst; clear H. cbn.
    assert (Hlen : (length rest <= length (chan_buf ch))%nat).
    { rewrite Hpre, length_app. lia. }
    split; [| split; [| split]].
    + repeat split; auto; try lia.
      apply Forall_stored_ok_ext with (h := heap w); [exact Hext |].
      rewrite Hpre in Hst. apply Forall_app in Hst. tauto.
    + intros m Hm ch' Heq. inversion Heq; subst. cbn. apply Hm. reflexivity.
    + lia.
    + exact Hext.
  - intros _ H. inversion H; subst. rewrite Hch.
    split; [exact I |]. split; [auto |]. split; [lia | apply heap_ext_refl].
Qed.

Lemma Put_inv (E : Env) (c c' : GRPCPool.t) wrap w w' r :
  pool_inv c w ->
  Put E c wrap w = Done ((r, c'), w') ->
  pool_inv c' w'
  /\ (forall m, cap_is m c -> cap_is m c')
  /\ heap_ext (heap w) (heap w').
Proof.
  intros Hinv H. unfold Put in H.
  destruct wrap as [p|].
  2:{ inversion H; subst. split; [exact Hinv |].
      split; [auto | apply heap_ext_refl]. }
  mstep H. apply load_Done in Hstep. destruct Hstep as [-> Hp].
  destruct (Conn a) as [cn|] eqn:Hcn.
  2:{ inversion H; subst. split; [exact Hinv |].
      split; [auto | apply heap_ext_refl]. }
  unfold pool_inv, cap_is in *.
  destruct (GRPCPool.conns c) as [ch|] eqn:Hch.
  - destruct Hinv as (Hf & Hc & Hcap & Hst & Hj).
    mstep H.
    assert (Hw : heap_ext (heap w) (heap w0)
                 /\ stored_ok (heap w0) (Some p)).
    { destruct (GRPCPool.timeoutType c =? IdleTimeoutType).
      - mstep Hstep. unfold time_Now in Hstep0.
        inversion Hstep0; subst; clear Hstep0.
        unfold store_t in Hstep. cbn in Hstep. rewrite Hp in Hstep.
        inversion Hstep; subst; clear Hstep. cbn.
        split; [apply heap_ext_store; exact Hp |].
        exists p, (mkIdle (Conn a) (clock E (ticks w))), cn.
        split; [reflexivity |]. split; [| exact Hcn].
        apply list_lookup_insert_eq. eapply lookup_lt_Some; eauto.
      - inversion Hstep; subst. split; [apply heap_ext_refl |].
        exists p, a, cn. auto. }
    destruct Hw as [Hext Hnew].
    destruct (Z.ltb_spec (Z.of_nat (length (chan_buf ch))) (chan_cap ch)).
    + inversion H; subst; clear H. cbn.
      split; [| split; [| exact Hext]].
      * repeat split; auto.
        -- rewrite length_app. cbn. lia.
        -- apply Forall_app. split.
           ++ apply Forall_stored_ok_ext with (h := heap w); assumption.
           ++ constructor; [exact Hnew | constructor].
      * intros m Hm ch' Heq. inversion Heq; subst. cbn. apply Hm. reflexivity.
    + mstep H. apply call_close_Done in Hstep0.
      destruct Hstep0 as (cn' & _ & _ & _ & ->).
      inversion H; subst; clear H. rewrite Hch. cbn.
      split; [| split; [auto | exact Hext]].
      repeat split; auto.
      apply Forall_stored_ok_ext with (h := heap w); assumption.
  - mstep H. apply call_close_Done in Hstep.
    destruct Hstep as (cn' & _ & _ & _ & ->).
    inversion H; subst; clear H. rewrite Hch. cbn.
    split; [exact I |]. split; [auto | apply heap_ext_refl].
Qed.

(** ** Calls of a client, and the states they reach *)

Lemma run_call_inv (E : Env) (c c' : GRPCPool.t) k w w' :
  pool_inv c w ->
  run_call E c k w = Done (c', w') ->
  pool_inv c' w' /\ (forall m, cap_is m c -> cap_is m c').
Proof.
  intros Hinv H. destruct k as [|wrap| | |cn]; cbn in H.
  - mstep H. destruct a as [r c1]. inversion H; subst; clear H.
    apply Get_inv in Hstep; [| exact Hinv]. tauto.
  - mstep H. destruct a as [r c1]. inversion H; subst; clear H.
    apply Put_inv in Hstep; [| exact Hinv]. tauto.
  - mstep H. destruct a as [[] c1]. inversion H; subst; clear H.
    apply Close_Done in Hstep. destruct Hstep as (-> & _).
    split; [exact I |]. intros m _ ch Hch. discriminate.
  - inversion H; subst. auto.
  - inversion H; subst; clear H.
    split; [| auto]. unfold pool_inv in *. cbn.
    destruct (GRPCPool.conns c'); [| exact I].
    destruct Hinv as (Hf & Hc & Hcap & Hst & Hj). repeat split; auto.
    apply Forall_stored_ok_ext with (h := heap w); [apply heap_ext_app | exact Hst].
Qed.

(** ** Construction *)

Lemma validate_None (o : Options.t) :
  validate o = None ->
  Options.InitTargets o <> None
  /\ 0 < Options.InitCap o <= Options.MaxCap o
  /\ (Options.TimeoutType o = IdleTimeoutType
      \/ Options.TimeoutType o = FixedTimeoutType)
  /\ Options.DialTimeout o <> 0.
Proof.
  unfold validate.
  destruct (Options.InitTargets o); cbn; [| discriminate].
  destruct (Z.leb_spec (Options.InitCap o) 0); cbn; [discriminate |].
  destruct (Z.leb_spec (Options.MaxCap o) 0); cbn; [discriminate |].
  destruct (Z.ltb_spec (Options.MaxCap o) (Options.InitCap o)); cbn; [discriminate |].
  destruct (Z.eqb_spec (Options.TimeoutType o) IdleTimeoutType); cbn.
  - destruct (Z.eqb_spec (Options.DialTimeout o) 0); cbn; [discriminate |].
    intros _. repeat split; auto; try lia; try discriminate.
  - destruct (Z.eqb_spec (Options.TimeoutType o) FixedTimeoutType); cbn;
      [| discriminate].
    destruct (Z.eqb_spec (Options.DialTimeout o) 0); cbn; [discriminate |].
    intros _. repeat split; auto; try lia; try discriminate.
Qed.

(** Past [validate] and [makechan], construction is [update] and the
    creation loop on the pool with an empty store. *)
Lemma NewGRPCPool_run (E : Env) (w0 : World) r w :
  validate (opts w0) = None ->
  NewGRPCPool E w0 = Done (r, w) ->
  8 * Options.MaxCap (opts w0) <= 2 ^ 48 - 96
  /\ init_conns E (Z.to_nat (Options.InitCap (opts w0))) (pool_of (opts w0))
       (set_opts (Options.set_targets PInitTargets (opts w0)) w0)
     = Done (r, w).
Proof.
  intros Hv. unfold NewGRPCPool. rewrite Hv. unfold bind at 1, makechan.
  destruct (Z.ltb_spec (Options.MaxCap (opts w0)) 0) as [Hneg|Hneg];
    cbn [orb panic]; [discriminate |].
  destruct (Z.ltb_spec (2 ^ 48 - 96) (8 * Options.MaxCap (opts w0))) as [Hbig|Hbig];
    cbn [orb panic]; [discriminate |].
  intros Hrun. split; [exact Hbig | exact Hrun].
Qed.

Lemma NewGRPCPool_in_range (E : Env) (w0 : World) :
  validate (opts w0) = None ->
  8 * Options.MaxCap (opts w0) <= 2 ^ 48 - 96 ->
  NewGRPCPool E w0
  = init_conns E (Z.to_nat (Options.InitCap (opts w0))) (pool_of (opts w0))
      (set_opts (Options.set_targets PInitTargets (opts w0)) w0).
Proof.
  intros Hv Hr. pose proof (validate_None _ Hv) as (_ & Hcap & _).
  unfold NewGRPCPool. rewrite Hv. unfold bind at 1, makechan.
  destruct (Z.ltb_spec (Options.MaxCap (opts w0)) 0); [lia |].
  destruct (Z.ltb_spec (2 ^ 48 - 96) (8 * Options.MaxCap (opts w0))); [lia |].
  reflexivity.
Qed.

Lemma init_conns_Done (E : Env) (n : nat) :
  forall (pool : GRPCPool.t) (ch : chan) (w : World) (c : GRPCPool.t) (w' : World),
    GRPCPool.conns pool = Some ch ->
    GRPCPool.factory pool = Some DialNextTarget ->
    GRPCPool.close pool = Some ConnClose ->
    Z.of_nat (length (chan_buf ch)) <= chan_cap ch ->
    Forall (stored_ok (heap w)) (chan_buf ch) ->
    init_conns E n pool w = Done ((Some c, None), w') ->
    exists ch',
      GRPCPool.conns c = Some ch'
      /\ chan_cap ch' = chan_cap ch
      /\ length (chan_buf ch') = (length (chan_buf ch) + n)%nat
      /\ Z.of_nat (length (chan_buf ch')) <= chan_cap ch'
      /\ Forall (stored_ok (heap w')) (chan_buf ch')
      /\ GRPCPool.factory c = Some DialNextTarget
      /\ GRPCPool.close c = Some ConnClose
      /\ GRPCPool.IdleTimeout c = GRPCPool.IdleTimeout pool
      /\ GRPCPool.timeoutType c = GRPCPool.timeoutType pool
      /\ ((0 < n)%nat -> jitter_ok c).
Proof.
  induction n as [|n IH]; intros pool ch w c w' Hch Hf Hc Hcap Hst H; cbn in H.
  - inversion H; subst; clear H. exists ch.
    repeat split; auto; try lia.
  - mstep H. rewrite Hf in Hstep. cbn in Hstep.
    apply factory_body_Done in Hstep.
    destruct Hstep as (Hh & _ & _ & _ & Hr).
    destruct a as [cn [err|]].
    { mstep H. inversion H. }
    destruct Hr as [(err & Hr)|(cn0 & Hr)]; [discriminate |].
    inversion Hr; subst cn; clear Hr.
    mstep H. apply createGrpcIdleConn_Done in Hstep.
    destruct Hstep as (-> & (t' & Hh') & _ & _ & Hjit).
    mstep H. unfold chan_send in Hstep. rewrite Hch in Hstep.
    destruct (Z.ltb_spec (Z.of_nat (length (chan_buf ch))) (chan_cap ch));
      [| discriminate].
    inversion Hstep; subst; clear Hstep.
    eapply IH in H; cbn; try reflexivity; try assumption.
    + destruct H as (ch' & H1 & H2 & H3 & H4 & H5 & H6 & H7 & H8 & H9 & _).
      exists ch'. cbn in *. rewrite length_app in H3. cbn in H3.
      repeat split; auto; try lia.
      intros _ Hfx. rewrite H8. apply Hjit. congruence.
    + cbn. rewrite length_app. cbn. lia.
    + cbn. rewrite Hh'. apply Forall_app. split.
      * apply Forall_stored_ok_ext with (h := heap w).
        -- rewrite <- Hh. apply heap_ext_app.
        -- exact Hst.
      * constructor; [| constructor].
        exists (length (heap w0)), (mkIdle (Some cn0) t'), cn0.
        split; [reflexivity |]. split; [| reflexivity].
        rewrite lookup_app_r by lia. rewrite Nat.sub_diag. reflexivity.
Qed.

(** A pool returned by [NewGRPCPool] satisfies the invariant, has the
    capacity [MaxCap] and holds [InitCap] idle entries. *)
Lemma NewGRPCPool_Done (E : Env) (w0 : World) (c : GRPCPool.t) (w : World) :
  NewGRPCPool E w0 = Done ((Some c, None), w) ->
  validate (opts w0) = None
  /\ pool_inv c w
  /\ cap_is (Options.MaxCap (opts w0)) c
  /\ GRPCPool.conns c <> None
  /\ IdleCount c = Options.InitCap (opts w0)
  /\ GRPCPool.IdleTimeout c = Options.IdleTimeout (opts w0)
  /\ GRPCPool.timeoutType c = Options.TimeoutType (opts w0).
Proof.
  destruct (validate (opts w0)) eqn:Hv.
  { unfold NewGRPCPool. rewrite Hv. intros H. inversion H. }
  intros H. split; [reflexivity |].
  apply NewGRPCPool_run in H; [| exact Hv]. destruct H as [_ H].
  apply validate_None in Hv. destruct Hv as (_ & Hcap & _ & _).
  eapply init_conns_Done with (ch := mkChan (Options.MaxCap (opts w0)) []) in H;
    [| reflexivity | reflexivity | reflexivity | cbn; lia | constructor].
  destruct H as (ch' & H1 & H2 & H3 & H4 & H5 & H6 & H7 & H8 & H9 & H10).
  cbn in *. unfold pool_inv, cap_is, IdleCount. rewrite H1.
  split; [| split; [| split; [| split]]].
  - repeat split; auto. apply H10. lia.
  - intros ch Heq. inversion Heq; subst. exact H2.
  - discriminate.
  - rewrite H3. lia.
  - auto.
Qed.

Lemma reachable_inv (E : Env) (w0 : World) (c : GRPCPool.t) (w : World) :
  reachable E w0 c w ->
  pool_inv c w /\ cap_is (Options.MaxCap (opts w0)) c.
Proof.
  induction 1 as [c w H | c w k c' w' _ IH H].
  - apply NewGRPCPool_Done in H. tauto.
  - destruct IH as [Hinv Hcap].
    apply run_call_inv in H; [| exact Hinv]. destruct H as [Hinv' Hcap'].
    split; [exact Hinv' | apply Hcap', Hcap].
Qed.

Lemma reachable_valid (E : Env) (w0 : World) (c : GRPCPool.t) (w : World) :
  reachable E w0 c w -> validate (opts w0) = None.
Proof.
  induction 1 as [c w H | c w k c' w' _ IH H]; [| exact IH].
  apply NewGRPCPool_Done in H. tauto.
Qed.

(** Two constructions, run. *)
Lemma NewGRPCPool_readme :
  NewGRPCPool quiet_env (world_of readme_options)
  = Done ((Some readme_pool, None), readme_world).
Proof. reflexivity. Qed.

Lemma NewGRPCPool_roomy :
  NewGRPCPool quiet_env (world_of roomy_options)
  = Done ((Some roomy_pool, None), roomy_world).
Proof. reflexivity. Qed.

(** ** Release *)

(** [Put] on an open pool whose store has room: the wrapper is enqueued
    and the result is nil. *)
Lemma Put_stores (E : Env) (c : GRPCPool.t) (ch : chan) (w : World)
    (p : ptr) (e : GrpcIdleConn) (cn : conn) :
  GRPCPool.conns c = Some ch ->
  Z.of_nat (length (chan_buf ch)) < chan_cap ch ->
  heap w !! p = Some e ->
  Conn e = Some cn ->
  exists w1 e1,
    Put E c (Some p) w
      = Done ((None, GRPCPool.set_conns
                       (Some (mkChan (chan_cap ch) (chan_buf ch ++ [Some p]))) c), w1)
    /\ heap w1 !! p = Some e1 /\ Conn e1 = Some cn
    /\ closed w1 = closed w.
Proof.
  intros Hch Hlt Hp Hcn. unfold Put, bind, load. rewrite Hp, Hcn, Hch.
  destruct (GRPCPool.timeoutType c =? IdleTimeoutType).
  - unfold time_Now, store_t. cbn. rewrite Hp.
    destruct (Z.ltb_spec (Z.of_nat (length (chan_buf ch))) (chan_cap ch)); [| lia].
    eexists _, _. split; [reflexivity |]. cbn.
    split; [apply list_lookup_insert_eq; eapply lookup_lt_Some; eauto |].
    split; [exact Hcn | reflexivity].
  - cbn.
    destruct (Z.ltb_spec (Z.of_nat (length (chan_buf ch))) (chan_cap ch)); [| lia].
    eexists _, _. split; [reflexivity |]. eauto.
Qed.

(** [Put] on an open pool whose store is full: the connection is closed,
    the pool is left as it was, and the result is that of the close. *)
Lemma Put_full (E : Env) (c : GRPCPool.t) (ch : chan) (w : World)
    (p : ptr) (e : GrpcIdleConn) (cn : conn) :
  GRPCPool.conns c = Some ch ->
  GRPCPool.close c = Some ConnClose ->
  chan_cap ch <= Z.of_nat (length (chan_buf ch)) ->
  heap w !! p = Some e ->
  Conn e = Some cn ->
  exists w',
    Put E c (Some p) w = Done ((close_result E cn, c), w')
    /\ closed w' = closed w ++ [cn].
Proof.
  intros Hch Hcl Hfull Hp Hcn. unfold Put, bind, load. rewrite Hp, Hcn, Hch, Hcl.
  destruct (GRPCPool.timeoutType c =? IdleTimeoutType).
  - unfold time_Now, store_t. cbn. rewrite Hp.
    destruct (Z.ltb_spec (Z.of_nat (length (chan_buf ch))) (chan_cap ch)); [lia |].
    cbn. eexists. split; reflexivity.
  - cbn.
    destruct (Z.ltb_spec (Z.of_nat (length (chan_buf ch))) (chan_cap ch)); [lia |].
    cbn. eexists. split; reflexivity.
Qed.

(** C7: in every state a client can reach, the store holds at most MaxCap
    entries; and [Put] of a wrapper with a connection on a store that holds
    MaxCap entries closes that connection and returns the pool unchanged, so
    IdleCount stays the same. *)
Theorem store_never_exceeds_MaxCap
    (E : Env) (w0 : World) (c : GRPCPool.t) (w : World) :
  reachable E w0 c w ->
  IdleCount c <= Options.MaxCap (opts w0)
  /\ forall (p : ptr) (e : GrpcIdleConn) (cn : conn),
       IdleCount c = Options.MaxCap (opts w0) ->
       heap w !! p = Some e ->
       Conn e = Some cn ->
       exists r w',
         Put E c (Some p) w = Done ((r, c), w')
         /\ closed w' = closed w ++ [cn].
Proof.
  intros Hr. pose proof (reachable_valid _ _ _ _ Hr) as Hv.
  apply validate_None in Hv. destruct Hv as (_ & Hcap & _).
  apply reachable_inv in Hr. destruct Hr as [Hinv Hm].
  unfold pool_inv, cap_is, IdleCount in *.
  destruct (GRPCPool.conns c) as [ch|] eqn:Hch.
  - destruct Hinv as (Hf & Hcl & Hle & Hst & Hj).
    specialize (Hm ch eq_refl). rewrite Hm in Hle.
    split; [exact Hle |].
    intros p e cn Hfull Hp Hcn.
    destruct (Put_full E c ch w p e cn Hch Hcl ltac:(lia) Hp Hcn) as (w' & HP & Hc').
    eauto.
  - split; [lia |]. intros p e cn Hfull. lia.
Qed.

Lemma store_never_exceeds_MaxCap_witness :
  IdleCount readme_pool <= Options.MaxCap (opts (world_of readme_options))
  /\ exists r w',
       Put quiet_env readme_pool (Some 0%nat) readme_world
         = Done ((r, readme_pool), w')
       /\ closed w' = closed readme_world ++ [0%nat].
Proof.
  destruct (store_never_exceeds_MaxCap quiet_env (world_of readme_options)
              readme_pool readme_world
              (reach_new _ _ _ _ NewGRPCPool_readme)) as [Hle Hput].
  split; [exact Hle |].
  apply (Hput 0%nat (mkIdle (Some 0%nat) 1000) 0%nat); reflexivity.
Defined.

(** C10: [Put] does not look at what the store already holds.  On a
    reachable open pool with at most MaxCap - 2 idle entries, two calls of
    [Put] with the same wrapper both return nil, IdleCount grows by one each
    time, and the store ends with that address twice. *)
Theorem Put_same_wrapper_twice
    (E : Env) (w0 : World) (c : GRPCPool.t) (ch : chan) (w : World)
    (p : ptr) (e : GrpcIdleConn) (cn : conn) :
  reachable E w0 c w ->
  GRPCPool.conns c = Some ch ->
  IdleCount c <= Options.MaxCap (opts w0) - 2 ->
  heap w !! p = Some e ->
  Conn e = Some cn ->
  exists c1 w1 c2 w2,
    Put E c (Some p) w = Done ((None, c1), w1)
    /\ Put E c1 (Some p) w1 = Done ((None, c2), w2)
    /\ IdleCount c1 = IdleCount c + 1
    /\ IdleCount c2 = IdleCount c + 2
    /\ GRPCPool.conns c2
       = Some (mkChan (chan_cap ch) (chan_buf ch ++ [Some p; Some p])).
Proof.
  intros Hr Hch Hroom Hp Hcn.
  apply reachable_inv in Hr. destruct Hr as [_ Hm].
  specialize (Hm ch Hch). unfold IdleCount in *. rewrite Hch in *.
  destruct (Put_stores E c ch w p e cn Hch ltac:(lia) Hp Hcn)
    as (w1 & e1 & HP1 & Hp1 & Hcn1 & _).
  set (c1 := GRPCPool.set_conns
               (Some (mkChan (chan_cap ch) (chan_buf ch ++ [Some p]))) c) in *.
  destruct (Put_stores E c1 (mkChan (chan_cap ch) (chan_buf ch ++ [Some p]))
              w1 p e1 cn eq_refl
              ltac:(cbn; rewrite length_app; cbn; lia) Hp1 Hcn1)
    as (w2 & e2 & HP2 & _).
  eexists c1, w1, _, w2. split; [exact HP1 |]. split; [exact HP2 |].
  cbn. rewrite !length_app. cbn. rewrite <- app_assoc. cbn.
  repeat split; lia.
Qed.

Lemma Put_same_wrapper_twice_witness :
  exists c1 w1 c2 w2,
    Put quiet_env roomy_pool (Some 0%nat) roomy_world = Done ((None, c1), w1)
    /\ Put quiet_env c1 (Some 0%nat) w1 = Done ((None, c2), w2)
    /\ IdleCount c1 = IdleCount roomy_pool + 1
    /\ IdleCount c2 = IdleCount roomy_pool + 2
    /\ GRPCPool.conns c2
       = Some (mkChan 3 [Some 0%nat; Some 0%nat; Some 0%nat]).
Proof.
  apply (Put_same_wrapper_twice quiet_env (world_of roomy_options) roomy_pool
           (mkChan 3 [Some 0%nat]) roomy_world 0%nat
           (mkIdle (Some 0%nat) 1000) 0%nat).
  - apply reach_new. exact NewGRPCPool_roomy.
  - reflexivity.
  - cbn. lia.
  - reflexivity.
  - reflexivity.
Defined.

(** ** Close failures during eviction *)

Lemma call_close_discarded (E E' : Env) {A} f v (k : M A) w :
  bind (call_close E f v) (fun _ => k) w
  = bind (call_close E' f v) (fun _ => k) w.
Proof.
  unfold bind, call_close, ClientConn_Close, panic.
  destruct f as [[]|]; [| reflexivity].
  destruct v; reflexivity.
Qed.

Lemma Get_loop_close_succeeds (E : Env) (c : GRPCPool.t) buf w :
  Get_loop E c buf w = Get_loop (close_succeeds E) c buf w.
Proof.
  revert w. induction buf as [|x buf IH]; intros w; [reflexivity |].
  cbn. destruct x as [p|]; [| reflexivity].
  apply bind_ext. intros e w1.
  destruct (Conn e); [| reflexivity].
  destruct (0 <? GRPCPool.IdleTimeout c); [| reflexivity].
  change (time_Now (close_succeeds E)) with (time_Now E).
  apply bind_ext. intros now w2.
  destruct (t e + GRPCPool.IdleTimeout c <? now); [| reflexivity].
  rewrite (call_close_discarded E (close_succeeds E)).
  apply bind_ext. intros _ w3. apply IH.
Qed.

(** C8, as stated, fails for [Put]: when the close of an over-capacity
    connection fails, the second [Put] of the scenario returns that error. *)
Lemma Put_over_capacity_returns_close_error :
  overflow_scenario failing_env (world_of readme_options)
  = Done ((Some (errExternal "close failed"), 1),
          mkWorld (Options.set_targets PInitTargets readme_options)
                  [mkIdle (Some 0%nat) 1000; mkIdle (Some 1%nat) 1000]
                  5 2 2 [1%nat]).
Proof. vm_compute. reflexivity. Qed.

(** C8, amended: a close failure on an expired connection is not escalated
    by [Get], which returns what it returns when every close succeeds; [Put]
    on a full store returns the result of closing the over-capacity
    connection, so a close failure there is the error of [Put]. *)
Theorem eviction_close_errors
    (E : Env) (c : GRPCPool.t) (w : World) :
  Get E c w = Get (close_succeeds E) c w
  /\ forall (ch : chan) (p : ptr) (e : GrpcIdleConn) (cn : conn),
       GRPCPool.conns c = Some ch ->
       GRPCPool.close c = Some ConnClose ->
       chan_cap ch <= Z.of_nat (length (chan_buf ch)) ->
       heap w !! p = Some e ->
       Conn e = Some cn ->
       exists w',
         Put E c (Some p) w = Done ((close_result E cn, c), w')
         /\ closed w' = closed w ++ [cn].
Proof.
  split.
  - unfold Get. destruct (GRPCPool.conns c) as [ch|]; [| reflexivity].
    unfold bind. rewrite <- Get_loop_close_succeeds. reflexivity.
  - intros ch p e cn. apply Put_full.
Qed.

Lemma eviction_close_errors_witness :
  exists w',
    Put failing_env readme_pool (Some 1%nat)
        (set_heap [mkIdle (Some 0%nat) 1000; mkIdle (Some 1%nat) 1000] readme_world)
    = Done ((Some (errExternal "close failed"), readme_pool), w')
    /\ closed w' = [1%nat].
Proof.
  destruct (eviction_close_errors failing_env readme_pool
              (set_heap [mkIdle (Some 0%nat) 1000; mkIdle (Some 1%nat) 1000]
                        readme_world)) as [_ H].
  apply (H (mkChan 1 [Some 0%nat]) 1%nat (mkIdle (Some 1%nat) 1000) 1%nat);
    (reflexivity || (cbn; lia)).
Defined.

(** ** The options seen by the factory *)

Lemma Get_opts (E : Env) (c c' : GRPCPool.t) w w' r :
  Get E c w = Done ((r, c'), w') -> opts w' = opts w.
Proof.
  unfold Get. destruct (GRPCPool.conns c) as [ch|].
  - intros H. mstep H. destruct a as [r0 rest].
    apply Get_loop_Done in Hstep. inversion H; subst. tauto.
  - intros H. inversion H; subst. reflexivity.
Qed.

Lemma Put_opts (E : Env) (c c' : GRPCPool.t) wrap w w' r :
  Put E c wrap w = Done ((r, c'), w') -> opts w' = opts w.
Proof.
  unfold Put. destruct wrap as [p|]; [| intros H; inversion H; subst; reflexivity].
  intros H. mstep H. apply load_Done in Hstep. destruct Hstep as [-> Hp].
  destruct (Conn a); [| inversion H; subst; reflexivity].
  destruct (GRPCPool.conns c) as [ch|].
  - mstep H.
    assert (Ho : opts w0 = opts w).
    { destruct (GRPCPool.timeoutType c =? IdleTimeoutType).
      - mstep Hstep. unfold time_Now in Hstep0.
        inversion Hstep0; subst; clear Hstep0.
        unfold store_t in Hstep. cbn in Hstep. rewrite Hp in Hstep.
        inversion Hstep; subst. reflexivity.
      - inversion Hstep; subst. reflexivity. }
    destruct (Z.of_nat (length (chan_buf ch)) <? chan_cap ch).
    + inversion H; subst. exact Ho.
    + mstep H. apply call_close_Done in Hstep0.
      destruct Hstep0 as (cn' & _ & _ & _ & ->).
      inversion H; subst. exact Ho.
  - mstep H. apply call_close_Done in Hstep.
    destruct Hstep as (cn' & _ & _ & _ & ->).
    inversion H; subst. reflexivity.
Qed.

Lemma run_call_opts (E : Env) (c c' : GRPCPool.t) k w w' :
  run_call E c k w = Done (c', w') -> opts w' = opts w.
Proof.
  intros H. destruct k as [|wrap| | |cn]; cbn in H.
  - mstep H. destruct a as [r c1]. inversion H; subst.
    eapply Get_opts; eauto.
  - mstep H. destruct a as [r c1]. inversion H; subst.
    eapply Put_opts; eauto.
  - mstep H. destruct a as [[] c1]. inversion H; subst.
    apply Close_Done in Hstep. tauto.
  - inversion H; subst. reflexivity.
  - inversion H; subst. reflexivity.
Qed.

Lemma init_conns_opts (E : Env) (n : nat) :
  forall pool w r w', init_conns E n pool w = Done (r, w') -> opts w' = opts w.
Proof.
  induction n as [|n IH]; intros pool w r w' H; cbn in H.
  - inversion H; subst. reflexivity.
  - mstep H. destruct (GRPCPool.factory pool) as [[]|]; [| discriminate].
    cbn in Hstep. apply factory_body_Done in Hstep.
    destruct Hstep as (_ & Ho & _).
    destruct a as [cn [err|]].
    + mstep H. destruct a as [[] c1]. apply Close_Done in Hstep.
      inversion H; subst. destruct Hstep as (_ & Ho' & _). congruence.
    + mstep H. apply createGrpcIdleConn_Done in Hstep.
      destruct Hstep as (_ & _ & Ho' & _).
      mstep H. unfold chan_send in Hstep.
      destruct (GRPCPool.conns pool) as [ch|]; [| discriminate].
      destruct (Z.of_nat (length (chan_buf ch)) <? chan_cap ch); [| discriminate].
      inversion Hstep; subst. apply IH in H. congruence.
Qed.

Lemma reachable_opts (E : Env) (w0 : World) (c : GRPCPool.t) (w : World) :
  reachable E w0 c w ->
  opts w = Options.set_targets PInitTargets (opts w0).
Proof.
  induction 1 as [c w H | c w k c' w' _ IH H].
  - destruct (validate (opts w0)) eqn:Hv.
    { unfold NewGRPCPool in H. rewrite Hv in H. inversion H. }
    apply NewGRPCPool_run in H; [| exact Hv]. destruct H as [_ H].
    apply init_conns_opts in H. exact H.
  - apply run_call_opts in H. congruence.
Qed.

(** ** Construction that fails *)

Lemma store_conns_app h l1 l2 :
  store_conns h (l1 ++ l2) = store_conns h l1 ++ store_conns h l2.
Proof.
  unfold store_conns. induction l1 as [|x l1 IH]; cbn; [reflexivity |].
  rewrite IH. destruct x as [p|]; cbn; [| reflexivity].
  destruct (h !! p) as [e|]; cbn; [| reflexivity].
  destruct (Conn e); reflexivity.
Qed.

Lemma store_conns_length h buf :
  Forall (stored_ok h) buf -> length (store_conns h buf) = length buf.
Proof.
  induction 1 as [|x buf Hx _ IH]; [reflexivity |].
  destruct Hx as (p & e & cn & -> & Hp & Hcn).
  unfold store_conns in *. cbn. rewrite Hp, Hcn. cbn. f_equal. exact IH.
Qed.

Lemma store_conns_ext h h' buf :
  heap_ext h h' -> Forall (stored_ok h) buf -> store_conns h' buf = store_conns h buf.
Proof.
  intros Hext. induction 1 as [|x buf Hx _ IH]; [reflexivity |].
  destruct Hx as (p & e & cn & -> & Hp & Hcn).
  destruct (Hext p e Hp) as (e' & Hp' & Hc').
  unfold store_conns in *. cbn. rewrite Hp, Hp', Hc', Hcn. cbn. f_equal. exact IH.
Qed.

Lemma drain_closes (E : Env) (buf : list (option ptr)) :
  forall w,
    Forall (stored_ok (heap w)) buf ->
    drain E (Some ConnClose) buf w
    = Done (tt, set_closed (closed w ++ store_conns (heap w) buf) w).
Proof.
  induction buf as [|x buf IH]; intros w HF.
  - cbn. unfold set_closed. rewrite app_nil_r. destruct w; reflexivity.
  - inversion HF as [|? ? Hx HF']; subst.
    destruct Hx as (p & e & cn & -> & Hp & Hcn).
    cbn [drain]. unfold bind at 1, load. rewrite Hp.
    unfold bind at 1. rewrite Hcn. cbn [call_close ClientConn_Close].
    rewrite IH by exact HF'.
    unfold store_conns. cbn. rewrite Hp, Hcn. cbn.
    unfold set_closed. cbn. rewrite <- app_assoc. reflexivity.
Qed.

Lemma init_conns_abort (E : Env) (n : nat) :
  forall (pool : GRPCPool.t) (ch : chan) (w : World) (err : error) (w' : World),
    GRPCPool.conns pool = Some ch ->
    GRPCPool.factory pool = Some DialNextTarget ->
    GRPCPool.close pool = Some ConnClose ->
    Forall (stored_ok (heap w)) (chan_buf ch) ->
    init_conns E n pool w = Done ((None, Some err), w') ->
    exists made,
      (length made < n)%nat
      /\ Forall (stored_ok (heap w')) (chan_buf ch ++ made)
      /\ length (heap w') = (length (heap w) + length made)%nat
      /\ closed w' = closed w ++ store_conns (heap w') (chan_buf ch ++ made).
Proof.
  induction n as [|n IH]; intros pool ch w err w' Hch Hf Hc Hst H; cbn in H.
  - inversion H.
  - mstep H. rewrite Hf in Hstep. cbn in Hstep.
    apply factory_body_Done in Hstep.
    destruct Hstep as (Hh & _ & Hcl & _ & Hr).
    destruct a as [cn [err0|]].
    + mstep H. inversion H; subst; clear H.
      unfold Close in Hstep. rewrite Hch, Hc in Hstep.
      mstep Hstep. destruct a as []. inversion Hstep; subst; clear Hstep.
      rewrite drain_closes in Hstep0 by (rewrite Hh; exact Hst).
      inversion Hstep0; subst; clear Hstep0. cbn.
      exists []. rewrite app_nil_r, Nat.add_0_r, Hh, Hcl.
      split; [cbn; lia |]. split; [exact Hst |]. split; reflexivity.
    + destruct Hr as [(e0 & Hr)|(cn0 & Hr)]; [discriminate |].
      inversion Hr; subst cn; clear Hr.
      mstep H. apply createGrpcIdleConn_Done in Hstep.
      destruct Hstep as (-> & (t' & Hh') & _ & Hcl' & _).
      mstep H. unfold chan_send in Hstep. rewrite Hch in Hstep.
      destruct (Z.of_nat (length (chan_buf ch)) <? chan_cap ch); [| discriminate].
      inversion Hstep; subst; clear Hstep.
      assert (Hst2 : Forall (stored_ok (heap w2))
                       (chan_buf ch ++ [Some (length (heap w0))])).
      { rewrite Hh'. apply Forall_app. split.
        - apply Forall_stored_ok_ext with (h := heap w); [| exact Hst].
          rewrite <- Hh. apply heap_ext_app.
        - constructor; [| constructor].
          exists (length (heap w0)), (mkIdle (Some cn0) t'), cn0.
          split; [reflexivity |]. split; [| reflexivity].
          rewrite lookup_app_r by lia. rewrite Nat.sub_diag. reflexivity. }
      eapply IH in H; [| reflexivity | exact Hf | exact Hc | exact Hst2].
      destruct H as (made & Hlen & HF & Hhl & Hclosed). cbn in *.
      exists (Some (length (heap w0)) :: made).
      rewrite <- app_assoc in HF, Hclosed. cbn in HF, Hclosed.
      split; [cbn; lia |]. split; [exact HF |]. split.
      * rewrite Hhl, Hh', length_app, Hh. cbn. lia.
      * rewrite Hclosed, Hcl', Hcl. reflexivity.
Qed.

(** When [NewGRPCPool] returns an error, either [validate] gave it and
    nothing was done, or a creation failed: every wrapper made so far (fewer
    than InitCap) has had its connection closed, and nothing else was
    closed. *)
Lemma NewGRPCPool_abort (E : Env) (w0 : World) (err : error) (w : World) :
  NewGRPCPool E w0 = Done ((None, Some err), w) ->
  (validate (opts w0) = Some err /\ w = w0)
  \/ (validate (opts w0) = None
      /\ exists made,
           Z.of_nat (length made) < Options.InitCap (opts w0)
           /\ Forall (stored_ok (heap w)) made
           /\ length (heap w) = (length (heap w0) + length made)%nat
           /\ closed w = closed w0 ++ store_conns (heap w) made
           /\ length (store_conns (heap w) made) = length made).
Proof.
  destruct (validate (opts w0)) eqn:Hv.
  { unfold NewGRPCPool. rewrite Hv. intros H. inversion H; subst. left. auto. }
  intros H. right. split; [reflexivity |].
  apply NewGRPCPool_run in H; [| exact Hv]. destruct H as [_ H].
  apply validate_None in Hv. destruct Hv as (_ & Hcap & _).
  eapply init_conns_abort with (ch := mkChan (Options.MaxCap (opts w0)) []) in H;
    [| reflexivity | reflexivity | reflexivity | constructor].
  destruct H as (made & Hlen & HF & Hhl & Hclosed). cbn in *.
  exists made. split; [lia |]. split; [exact HF |]. split; [exact Hhl |].
  split; [exact Hclosed | apply store_conns_length, HF].
Qed.

(** ** Acquire and expiry *)

Lemma all_expired_length E c h n pre cns :
  all_expired E c h n pre cns -> length cns = length pre.
Proof.
  revert n cns. induction pre as [|q pre IH]; intros n [|cn cns] H; cbn in *;
    try contradiction; [reflexivity |].
  destruct H as [_ H]. f_equal. eapply IH, H.
Qed.

Lemma Get_loop_evicts (E : Env) (c : GRPCPool.t) (buf : list (option ptr)) :
  0 < GRPCPool.IdleTimeout c ->
  GRPCPool.close c = Some ConnClose ->
  forall (pre : list ptr) (cns : list conn) (w : World),
    all_expired E c (heap w) (ticks w) pre cns ->
    Get_loop E c (map Some pre ++ buf) w
    = Get_loop E c buf
        (mkWorld (opts w) (heap w) (ticks w + length pre) (draws w) (dials w)
                 (closed w ++ cns)).
Proof.
  intros HT Hcl. induction pre as [|q pre IH]; intros [|cn cns] w H; cbn in H;
    try contradiction.
  - cbn. rewrite Nat.add_0_r, app_nil_r. destruct w; reflexivity.
  - destruct H as [(e & Hq & Hcn & Hold) H].
    cbn [map app Get_loop]. unfold bind at 1, load. rewrite Hq, Hcn.
    destruct (Z.ltb_spec 0 (GRPCPool.IdleTimeout c)); [| lia].
    unfold bind at 1, time_Now.
    destruct (Z.ltb_spec (t e + GRPCPool.IdleTimeout c) (clock E (ticks w))); [| lia].
    unfold bind at 1. rewrite Hcl. cbn [call_close ClientConn_Close].
    rewrite (IH cns); [| exact H]. cbn.
    rewrite <- app_assoc. cbn. rewrite Nat.add_succ_r. reflexivity.
Qed.

Lemma Get_loop_returns (E : Env) (c : GRPCPool.t) (rest : list (option ptr))
    (p : ptr) (w : World) :
  0 < GRPCPool.IdleTimeout c ->
  not_expired E c (heap w) (ticks w) p ->
  Get_loop E c (Some p :: rest) w
  = Done (((Some p, None), rest), set_ticks (S (ticks w)) w).
Proof.
  intros HT (e & cn & Hp & Hcn & Hage).
  cbn [Get_loop]. unfold bind at 1, load. rewrite Hp, Hcn.
  destruct (Z.ltb_spec 0 (GRPCPool.IdleTimeout c)); [| lia].
  unfold bind, time_Now.
  destruct (Z.ltb_spec (t e + GRPCPool.IdleTimeout c) (clock E (ticks w))); [lia |].
  reflexivity.
Qed.

Lemma createGrpcIdleConn_total (E : Env) (c : GRPCPool.t) cn w :
  jitter_ok c ->
  exists w' t',
    createGrpcIdleConn E c cn w = Done (length (heap w), w')
    /\ heap w' = heap w ++ [mkIdle cn t']
    /\ closed w' = closed w.
Proof.
  intros Hj.
  destruct (Z.eq_dec (GRPCPool.timeoutType c) IdleTimeoutType) as [Hi|Hi].
  - rewrite createGrpcIdleConn_idle by exact Hi. eexists _, _. cbn. eauto.
  - destruct (Z.eq_dec (GRPCPool.timeoutType c) FixedTimeoutType) as [Hf|Hf].
    + rewrite createGrpcIdleConn_fixed by auto. eexists _, _. cbn. eauto.
    + unfold createGrpcIdleConn.
      destruct (Z.eqb_spec (GRPCPool.timeoutType c) IdleTimeoutType); [contradiction |].
      destruct (Z.eqb_spec (GRPCPool.timeoutType c) FixedTimeoutType); [contradiction |].
      cbn. eexists _, _. cbn. eauto.
Qed.

(** With IdleTimeout <= 0 the expiry check is skipped: the head of the
    store is returned whatever its age, and nothing is closed. *)
Lemma Get_timeout_disabled (E : Env) (c : GRPCPool.t) (ch : chan) (w : World)
    (p : ptr) (rest : list (option ptr)) (e : GrpcIdleConn) (cn : conn) :
  GRPCPool.conns c = Some ch ->
  chan_buf ch = Some p :: rest ->
  heap w !! p = Some e ->
  Conn e = Some cn ->
  GRPCPool.IdleTimeout c <= 0 ->
  Get E c w
  = Done (((Some p, None),
           GRPCPool.set_conns (Some (mkChan (chan_cap ch) rest)) c), w).
Proof.
  intros Hch Hbuf Hp Hcn HT. unfold Get. rewrite Hch, Hbuf.
  cbn [Get_loop]. unfold bind, load. rewrite Hp, Hcn.
  destruct (Z.ltb_spec 0 (GRPCPool.IdleTimeout c)); [lia |].
  reflexivity.
Qed.

(** Every stored wrapper is expired or not when its turn comes. *)
Lemma expiry_cases (E : Env) (c : GRPCPool.t) (h : list GrpcIdleConn) :
  forall (buf : list (option ptr)) (n : nat),
    Forall (stored_ok h) buf ->
    (exists pre cns p rest,
        buf = map Some pre ++ Some p :: rest
        /\ all_expired E c h n pre cns
        /\ not_expired E c h (n + length pre) p)
    \/ (exists ps cns, buf = map Some ps /\ all_expired E c h n ps cns).
Proof.
  induction buf as [|x buf IH]; intros n HF.
  - right. exists [], []. split; [reflexivity | exact I].
  - inversion HF as [|? ? Hx HF']; subst.
    destruct Hx as (q & e & cn & -> & Hq & Hcn).
    destruct (Z_le_gt_dec (clock E n - t e) (GRPCPool.IdleTimeout c)) as [Hle|Hgt].
    + left. exists [], [], q, buf. split; [reflexivity |]. split; [exact I |].
      cbn. rewrite Nat.add_0_r. exists e, cn. auto.
    + destruct (IH (S n) HF')
        as [(pre & cns & p & rest & -> & Hexp & Hlive)|(ps & cns & -> & Hexp)].
      * left. exists (q :: pre), (cn :: cns), p, rest.
        split; [reflexivity |]. split.
        -- cbn. split; [exists e; auto | exact Hexp].
        -- cbn [length]. rewrite Nat.add_succ_r. exact Hlive.
      * right. exists (q :: ps), (cn :: cns). split; [reflexivity |].
        cbn. split; [exists e; auto | exact Hexp].
Qed.

Lemma rand_Int_range (E : Env) (w : World) (tlen : Z) :
  0 < tlen ->
  0 <= Z.rem (rnd E (draws w) mod 2 ^ 63) tlen < tlen.
Proof.
  intros Hpos.
  assert (Hv : 0 <= rnd E (draws w) mod 2 ^ 63) by (apply Z.mod_pos_bound; lia).
  rewrite Z.rem_mod_nonneg by lia.
  apply Z.mod_pos_bound. lia.
Qed.

Lemma createGrpcIdleConn_counts (E : Env) (c : GRPCPool.t) cn w p w' :
  createGrpcIdleConn E c cn w = Done (p, w') ->
  dials w' = dials w /\ ticks w' = S (ticks w).
Proof.
  unfold createGrpcIdleConn.
  destruct (GRPCPool.timeoutType c =? IdleTimeoutType).
  - cbn. intros H. inversion H; subst. auto.
  - destruct (GRPCPool.timeoutType c =? FixedTimeoutType).
    + unfold bind, time_Now, rand_Int63n.
      destruct (Z.quot (Milliseconds (GRPCPool.IdleTimeout c)) 2 <=? 0);
        cbn; [discriminate |].
      intros H. inversion H; subst. auto.
    + cbn. intros H. inversion H; subst. auto.
Qed.

Lemma nextTarget_exact (E : Env) (w : World) (ts : slice) :
  deref_targets (opts w) = Done ts ->
  (len ts = 0 -> nextTarget E w = Done (EmptyString, w))
  /\ (0 < len ts ->
      nextTarget E w
      = Done (picked_target E w ts, set_draws (S (draws w)) w)).
Proof.
  intros Hd. unfold nextTarget. rewrite Hd. split.
  - intros ->. reflexivity.
  - intros Hpos. destruct (Z.leb_spec (len ts) 0); [lia |]. reflexivity.
Qed.

Lemma picked_target_member (E : Env) (w : World) (l : list string) :
  0 < len (Some l) -> In (picked_target E w (Some l)) l.
Proof.
  intros Hpos. unfold picked_target. cbn [index len] in *.
  apply nth_In.
  pose proof (rand_Int_range E w (Z.of_nat (length l)) Hpos) as Hr.
  apply Nat2Z.inj_lt. rewrite Z2Nat.id by lia. lia.
Qed.

(** The factory closure, exactly: no dial on an empty list or an empty
    picked address, otherwise one dial of the picked address whose result is
    handed back. *)
Lemma factory_body_exact (E : Env) (w : World) (ts : slice) :
  deref_targets (opts w) = Done ts ->
  (len ts = 0 ->
   factory_body E w = Done ((None, Some errTargets), w))
  /\ (0 < len ts ->
      (picked_target E w ts = EmptyString ->
       factory_body E w
       = Done ((None, Some errTargets), set_draws (S (draws w)) w))
      /\ (picked_target E w ts <> EmptyString ->
          factory_body E w
          = Done (match dialer E (dials w) (picked_target E w ts) with
                  | inl c => (Some c, None)
                  | inr e => (None, Some e)
                  end,
                  set_dials (S (dials w)) (set_draws (S (draws w)) w)))).
Proof.
  intros Hd. destruct (nextTarget_exact E w ts Hd) as [Hz Hp].
  unfold factory_body, bind. split.
  - intros H0. rewrite (Hz H0). reflexivity.
  - intros Hpos. rewrite (Hp Hpos). split.
    + intros ->. reflexivity.
    + intros Hne.
      destruct (String.eqb_spec (picked_target E w ts) EmptyString);
        [contradiction |].
      unfold grpc_DialContext. cbn [dials set_draws].
      destruct (dialer E (dials w) (picked_target E w ts)); reflexivity.
Qed.

(** C6: on an open pool with IdleTimeout > 0, [Get] walks the store from
    its head.  Every wrapper that is expired when checked is closed and
    passed over; the first one that is not expired (now - timestamp <=
    IdleTimeout) is returned with a nil error and the rest of the store is
    kept.  When every stored wrapper was expired (or the store was empty)
    [Get] goes on as on an empty store: with no target to pick, or an empty
    address picked, it returns [errTargets] without dialing; otherwise it
    dials the picked target once, and returns a new wrapper (a fresh address)
    around the dialed connection when the dial succeeds, the dial's error
    when it fails.  Every store falls under one of the two cases. *)
Theorem Get_expiry (E : Env) (c : GRPCPool.t) (ch : chan) (w : World)
    (ts : slice) :
  GRPCPool.conns c = Some ch ->
  pool_inv c w ->
  deref_targets (opts w) = Done ts ->
  0 < GRPCPool.IdleTimeout c ->
  (forall (pre : list ptr) (cns : list conn) (p : ptr) (rest : list (option ptr)),
      chan_buf ch = map Some pre ++ Some p :: rest ->
      all_expired E c (heap w) (ticks w) pre cns ->
      not_expired E c (heap w) (ticks w + length pre) p ->
      Get E c w
      = Done (((Some p, None),
               GRPCPool.set_conns (Some (mkChan (chan_cap ch) rest)) c),
              mkWorld (opts w) (heap w) (S (ticks w + length pre))
                      (draws w) (dials w) (closed w ++ cns)))
  /\ (forall (ps : list ptr) (cns : list conn),
        chan_buf ch = map Some ps ->
        all_expired E c (heap w) (ticks w) ps cns ->
        let c1 := GRPCPool.set_conns (Some (mkChan (chan_cap ch) [])) c in
        let w1 := mkWorld (opts w) (heap w) (ticks w + length ps)
                          (draws w) (dials w) (closed w ++ cns) in
        let target := picked_target E w ts in
        (len ts = 0 ->
         Get E c w = Done (((None, Some errTargets), c1), w1))
        /\ (0 < len ts -> target = EmptyString ->
            Get E c w
            = Done (((None, Some errTargets), c1), set_draws (S (draws w)) w1))
        /\ (0 < len ts -> target <> EmptyString ->
            (exists l, ts = Some l /\ In target l)
            /\ (forall err,
                  dialer E (dials w) target = inr err ->
                  Get E c w
                  = Done (((None, Some err), c1),
                          set_dials (S (dials w)) (set_draws (S (draws w)) w1)))
            /\ (forall cn,
                  dialer E (dials w) target = inl cn ->
                  exists w3 t',
                    Get E c w
                    = Done (((Some (length (heap w)), None), c1), w3)
                    /\ heap w3 = heap w ++ [mkIdle (Some cn) t']
                    /\ closed w3 = closed w ++ cns
                    /\ dials w3 = S (dials w))))
  /\ ((exists pre cns p rest,
         chan_buf ch = map Some pre ++ Some p :: rest
         /\ all_expired E c (heap w) (ticks w) pre cns
         /\ not_expired E c (heap w) (ticks w + length pre) p)
      \/ (exists ps cns,
            chan_buf ch = map Some ps
            /\ all_expired E c (heap w) (ticks w) ps cns)).
Proof.
  intros Hch Hinv Hd HT. unfold pool_inv in Hinv. rewrite Hch in Hinv.
  destruct Hinv as (Hf & Hcl & _ & Hst & Hj).
  split; [| split; [| apply expiry_cases; exact Hst]].
  - intros pre cns p rest Hbuf Hexp Hlive.
    unfold Get. rewrite Hch, Hbuf. unfold bind.
    rewrite (Get_loop_evicts E c _ HT Hcl pre cns w Hexp).
    rewrite Get_loop_returns by assumption.
    reflexivity.
  - intros ps cns Hbuf Hexp c1 w1 target.
    assert (Hmiss : Get E c w
                    = (r <- call_factory E (Some DialNextTarget) ;;
                       match r with
                       | (_, Some err) => ret ((None, Some err), c1)
                       | (cn, None) =>
                           p <- createGrpcIdleConn E c cn ;;
                           ret ((Some p, None), c1)
                       end) w1).
    { unfold Get. rewrite Hch, Hbuf. unfold bind at 1.
      rewrite <- (app_nil_r (map Some ps)).
      rewrite (Get_loop_evicts E c _ HT Hcl ps cns w Hexp).
      fold w1. cbn [Get_loop]. rewrite Hf. unfold bind.
      destruct (call_factory E (Some DialNextTarget) w1) as [[[cn [err|]] w2]| |];
        try reflexivity.
      destruct (createGrpcIdleConn E c cn w2) as [[p w3]| |]; reflexivity. }
    assert (Hd1 : deref_targets (opts w1) = Done ts) by exact Hd.
    destruct (factory_body_exact E w1 ts Hd1) as [Hz Hp].
    change (picked_target E w1 ts) with target in Hp.
    cbn [call_factory] in Hmiss.
    split; [| split].
    + intros H0. rewrite Hmiss. unfold bind. rewrite (Hz H0). reflexivity.
    + intros Hpos Hempty. destruct (Hp Hpos) as [He _].
      rewrite Hmiss. unfold bind. rewrite (He Hempty). reflexivity.
    + intros Hpos Hne. destruct (Hp Hpos) as [_ Hdial].
      specialize (Hdial Hne).
      change (dials w1) with (dials w) in Hdial.
      change (draws w1) with (draws w) in Hdial.
      split; [| split].
      * destruct ts as [l|]; [| cbn in Hpos; lia].
        exists l. split; [reflexivity |].
        apply (picked_target_member E w l Hpos).
      * intros err Herr. rewrite Herr in Hdial.
        rewrite Hmiss. unfold bind. rewrite Hdial. reflexivity.
      * intros cn Hcn. rewrite Hcn in Hdial.
        destruct (createGrpcIdleConn_total E c (Some cn)
                    (set_dials (S (dials w)) (set_draws (S (draws w)) w1)) Hj)
          as (w3 & t' & Hnew & Hh3 & Hc3).
        pose proof (createGrpcIdleConn_counts _ _ _ _ _ _ Hnew) as [Hd3 _].
        exists w3, t'. split; [| split; [exact Hh3 | split; [exact Hc3 | exact Hd3]]].
        rewrite Hmiss. unfold bind. rewrite Hdial. rewrite Hnew. reflexivity.
Qed.

Lemma aged_pool_inv : pool_inv aged_pool aged_world.
Proof.
  unfold pool_inv. cbn. repeat split; try lia.
  constructor; [| constructor; [| constructor]].
  - exists 0%nat, (mkIdle (Some 0%nat) 0), 0%nat. repeat split.
  - exists 1%nat, (mkIdle (Some 1%nat) (90 * Second)), 1%nat. repeat split.
Qed.

Lemma Get_expiry_witness :
  Get aged_env aged_pool aged_world
  = Done (((Some 1%nat, None),
           GRPCPool.set_conns (Some (mkChan 2 [])) aged_pool),
          mkWorld (opts aged_world) (heap aged_world) 4 2 2 [0%nat])
  /\ exists w3 t',
       Get late_env aged_pool aged_world
       = Done (((Some 2%nat, None),
                GRPCPool.set_conns (Some (mkChan 2 [])) aged_pool), w3)
       /\ heap w3 = heap aged_world ++ [mkIdle (Some 2%nat) t']
       /\ closed w3 = closed aged_world ++ [0%nat; 1%nat]
       /\ dials w3 = 3%nat.
Proof.
  split.
  - destruct (Get_expiry aged_env aged_pool (mkChan 2 [Some 0%nat; Some 1%nat])
                aged_world (Some ["127.0.0.1:8080"%string])
                eq_refl aged_pool_inv eq_refl) as [H _].
    + cbn. unfold Second. lia.
    + apply (H [0%nat] [0%nat] 1%nat []).
      * reflexivity.
      * cbn. split; [| exact I].
        exists (mkIdle (Some 0%nat) 0).
        split; [reflexivity |]. split; [reflexivity |]. cbn. unfold Second. lia.
      * exists (mkIdle (Some 1%nat) (90 * Second)), 1%nat.
        split; [reflexivity |]. split; [reflexivity |]. cbn. unfold Second. lia.
  - destruct (Get_expiry late_env aged_pool (mkChan 2 [Some 0%nat; Some 1%nat])
                aged_world (Some ["127.0.0.1:8080"%string])
                eq_refl aged_pool_inv eq_refl) as (_ & H & _).
    + cbn. unfold Second. lia.
    + destruct (H [0%nat; 1%nat] [0%nat; 1%nat]) as (_ & _ & Hdial).
      * reflexivity.
      * cbn. split.
        -- exists (mkIdle (Some 0%nat) 0).
           split; [reflexivity |]. split; [reflexivity |].
           cbn. unfold Second. lia.
        -- split; [| exact I].
           exists (mkIdle (Some 1%nat) (90 * Second)).
           split; [reflexivity |]. split; [reflexivity |].
           cbn. unfold Second. lia.
      * destruct Hdial as (_ & _ & Hok).
        -- cbn. lia.
        -- discriminate.
        -- apply (Hok 2%nat). reflexivity.
Defined.

(** ** The target feed *)

(** The listener applies what it receives: a slice replaces the targets,
    a nil pointer is skipped. *)
Lemma listener_step_replace (o : Options.t) (s : slice) q :
  Options.input o = Some (Some s :: q) ->
  exists o', listener_step o = Done o'
             /\ deref_targets o' = Done s
             /\ Options.input o' = Some q.
Proof.
  intros H. unfold listener_step. rewrite H. eexists. repeat split.
Qed.

Lemma listener_step_nil (o : Options.t) q :
  Options.input o = Some (None :: q) ->
  exists o', listener_step o = Done o'
             /\ Options.targets o' = Options.targets o
             /\ Options.input o' = Some q.
Proof.
  intros H. unfold listener_step. rewrite H. eexists. repeat split.
Qed.

(** No function of the package assigns [Options.input]. *)
Lemma NewOptions_input : Options.input NewOptions = None.
Proof. reflexivity. Qed.

Lemma update_input (w w' : World) :
  update w = Done (tt, w') -> Options.input (opts w') = Options.input (opts w).
Proof. intros H. inversion H; subst. reflexivity. Qed.

(** C2: the channel behind [Input] is never made.  For options whose
    [input] is nil (what [NewOptions] and every struct literal of a client
    give), in every state a client reaches a send on [Input()] blocks for
    ever, the listener never receives, and the targets the factory picks
    from are still [InitTargets]: no replacement is applied. *)
Theorem Input_never_ready
    (E : Env) (w0 : World) (c : GRPCPool.t) (w : World) (m : option slice) :
  Options.input (opts w0) = None ->
  reachable E w0 c w ->
  send (Input (opts w)) m = Blocked
  /\ listener_step (opts w) = Blocked
  /\ deref_targets (opts w) = Done (Options.InitTargets (opts w0)).
Proof.
  intros Hin Hr. apply reachable_opts in Hr. rewrite Hr.
  unfold send, Input, listener_step, deref_targets. cbn. rewrite Hin. auto.
Qed.

Lemma Input_never_ready_witness :
  Options.input (opts (world_of readme_options)) = None
  /\ send (Input (opts readme_world)) (Some (Some ["B"%string])) = Blocked
  /\ listener_step (opts readme_world) = Blocked
  /\ deref_targets (opts readme_world) = Done (Some ["127.0.0.1:8080"%string]).
Proof.
  split; [reflexivity |].
  apply (Input_never_ready quiet_env (world_of readme_options) readme_pool
           readme_world (Some (Some ["B"%string]))).
  - reflexivity.
  - apply reach_new. exact NewGRPCPool_readme.
Defined.

(** * Further properties of the package *)

(** ** Picking a target and dialing it *)

Lemma nextTarget_nonempty (E : Env) (w : World) (l : list string) :
  deref_targets (opts w) = Done (Some l) ->
  l <> [] ->
  exists s, In s l
            /\ nextTarget E w = Done (s, set_draws (S (draws w)) w).
Proof.
  intros Hd Hne. unfold nextTarget. rewrite Hd. cbn [len].
  assert (Hlen : 0 < Z.of_nat (length l)).
  { destruct l; [contradiction | cbn [length]; lia]. }
  destruct (Z.leb_spec (Z.of_nat (length l)) 0); [lia |].
  unfold bind, rand_Int, rand_Int63, ret. cbn [index].
  eexists. split; [| reflexivity].
  apply nth_In.
  pose proof (rand_Int_range E w (Z.of_nat (length l)) Hlen) as Hr.
  apply Nat2Z.inj_lt. rewrite Z2Nat.id by lia. lia.
Qed.

(** X1: [nextTarget] never indexes out of range.  On a target list that
    is nil or empty it returns the empty string and takes nothing from the
    random source; on any other list it returns one of its elements and
    takes one draw. *)
Theorem nextTarget_picks_member (E : Env) (w : World) (ts : slice) :
  deref_targets (opts w) = Done ts ->
  (len ts = 0 -> nextTarget E w = Done (EmptyString, w))
  /\ (0 < len ts ->
      exists l s,
        ts = Some l /\ In s l
        /\ nextTarget E w = Done (s, set_draws (S (draws w)) w)).
Proof.
  intros Hd. split.
  - intros Hz. unfold nextTarget. rewrite Hd, Hz. reflexivity.
  - intros Hpos. destruct ts as [l|]; [| cbn in Hpos; lia].
    assert (Hne : l <> []) by (intros ->; cbn in Hpos; lia).
    destruct (nextTarget_nonempty E w l Hd Hne) as (s & Hin & Hn).
    exists l, s. auto.
Qed.

Lemma nextTarget_picks_member_witness :
  exists l s,
    Some ["127.0.0.1:8080"%string] = Some l /\ In s l
    /\ nextTarget quiet_env readme_world
       = Done (s, set_draws (S (draws readme_world)) readme_world).
Proof.
  destruct (nextTarget_picks_member quiet_env readme_world
              (Some ["127.0.0.1:8080"%string]) eq_refl) as [_ H].
  apply H. cbn. lia.
Defined.

Lemma factory_body_of_target (E : Env) (w : World)
    (target : string) (w1 : World) :
  nextTarget E w = Done (target, w1) ->
  (target = EmptyString ->
   factory_body E w = Done ((None, Some errTargets), w1))
  /\ (target <> EmptyString ->
      factory_body E w
      = Done (match dialer E (dials w1) target with
              | inl c => (Some c, None)
              | inr e => (None, Some e)
              end,
              set_dials (S (dials w1)) w1)).
Proof.
  intros Hn. unfold factory_body, bind. rewrite Hn. split.
  - intros ->. reflexivity.
  - intros Hne. destruct (String.eqb_spec target EmptyString); [contradiction |].
    unfold grpc_DialContext. destruct (dialer E (dials w1) target); reflexivity.
Qed.

(** X2: the factory closure, case by case.  On a target list that is nil
    or empty it returns [errTargets] and neither draws nor dials.  Otherwise
    it picks an element of the list with one draw; if that element is the
    empty string it returns [errTargets] without dialing; if not, it dials
    that element exactly once and hands back what the dial gave, connection
    or error, unchanged. *)
Theorem factory_dials_member (E : Env) (w : World) (ts : slice) :
  deref_targets (opts w) = Done ts ->
  let target := picked_target E w ts in
  (len ts = 0 ->
   factory_body E w = Done ((None, Some errTargets), w))
  /\ (0 < len ts ->
      (exists l, ts = Some l /\ In target l)
      /\ (target = EmptyString ->
          factory_body E w
          = Done ((None, Some errTargets), set_draws (S (draws w)) w))
      /\ (target <> EmptyString ->
          factory_body E w
          = Done (match dialer E (dials w) target with
                  | inl c => (Some c, None)
                  | inr e => (None, Some e)
                  end,
                  set_dials (S (dials w)) (set_draws (S (draws w)) w)))).
Proof.
  intros Hd target. destruct (factory_body_exact E w ts Hd) as [Hz Hp].
  split; [exact Hz |]. intros Hpos. destruct (Hp Hpos) as [He Hne].
  split; [| split; assumption].
  destruct ts as [l|]; [| cbn in Hpos; lia].
  exists l. split; [reflexivity | apply (picked_target_member E w l Hpos)].
Qed.

Lemma factory_dials_member_witness :
  factory_body quiet_env readme_world
  = Done ((Some 1%nat, None), set_dials 2 (set_draws 2 readme_world)).
Proof.
  pose proof (factory_dials_member quiet_env readme_world
                (Some ["127.0.0.1:8080"%string]) eq_refl) as H.
  cbv zeta in H. destruct H as [_ H].
  destruct H as (_ & _ & H); [cbn; lia |].
  apply H. discriminate.
Defined.

(** ** Construction, step by step *)

Lemma factory_body_dialed (E : Env) w cn w' :
  factory_body E w = Done ((Some cn, None), w') ->
  dials w' = S (dials w) /\ ticks w' = ticks w
  /\ heap w' = heap w /\ closed w' = closed w /\ opts w' = opts w.
Proof.
  unfold factory_body, bind, nextTarget.
  destruct (deref_targets (opts w)) as [ts| |]; try discriminate.
  destruct (len ts <=? 0).
  - cbn. discriminate.
  - unfold bind, rand_Int, rand_Int63, ret.
    destruct (String.eqb _ _); [discriminate |].
    unfold grpc_DialContext. cbn.
    destruct (dialer E _ _); intros H; inversion H; subst; cbn; auto.
Qed.

Lemma init_conns_built (E : Env) (n : nat) :
  forall (pool : GRPCPool.t) (ch : chan) (w : World) (c : GRPCPool.t) (w' : World),
    GRPCPool.conns pool = Some ch ->
    init_conns E n pool w = Done ((Some c, None), w') ->
    c = GRPCPool.set_conns
          (Some (mkChan (chan_cap ch)
                        (chan_buf ch ++ map Some (seq (length (heap w)) n))))
          pool
    /\ dials w' = (dials w + n)%nat
    /\ ticks w' = (ticks w + n)%nat
    /\ length (heap w') = (length (heap w) + n)%nat
    /\ closed w' = closed w.
Proof.
  induction n as [|n IH]; intros pool ch w c w' Hch H; cbn in H.
  - inversion H; subst; clear H. cbn. rewrite app_nil_r, !Nat.add_0_r.
    repeat split; auto. destruct c; cbn in *. subst. destruct ch; reflexivity.
  - mstep H. destruct (GRPCPool.factory pool) as [[]|]; [| discriminate].
    cbn in Hstep. destruct a as [cn [err|]].
    { mstep H. inversion H. }
    destruct cn as [cn|].
    2:{ apply factory_body_Done in Hstep.
        destruct Hstep as (_ & _ & _ & _ & [(e & He)|(x & Hx)]); discriminate. }
    apply factory_body_dialed in Hstep.
    destruct Hstep as (Hd & Ht & Hh & Hc & _).
    mstep H. pose proof (createGrpcIdleConn_counts _ _ _ _ _ _ Hstep) as [Hd' Ht'].
    apply createGrpcIdleConn_Done in Hstep.
    destruct Hstep as (-> & (t' & Hh') & _ & Hc' & _).
    mstep H. unfold chan_send in Hstep. rewrite Hch in Hstep.
    destruct (Z.of_nat (length (chan_buf ch)) <? chan_cap ch); [| discriminate].
    inversion Hstep; subst; clear Hstep.
    eapply IH in H; [| reflexivity].
    destruct H as (-> & HD & HT & HH & HC). cbn.
    rewrite Hh', length_app, Hh. cbn [length].
    rewrite <- app_assoc. cbn [app seq map].
    rewrite Nat.add_1_r.
    split; [reflexivity |].
    rewrite HD, HT, HH, HC, Hd', Hd, Ht', Ht, Hc', Hc, Hh', length_app, Hh.
    cbn [length]. repeat split; lia.
Qed.

(** X3: a pool returned by [NewGRPCPool] is open with both closures, has
    the policy and the timeout of the options, a channel of capacity MaxCap
    that holds exactly the InitCap wrappers made during construction, in the
    order they were made; InitCap dials were made and no connection was
    closed. *)
Theorem NewGRPCPool_returns_full_store
    (E : Env) (w0 : World) (c : GRPCPool.t) (w : World) :
  NewGRPCPool E w0 = Done ((Some c, None), w) ->
  c = GRPCPool.mk (Options.IdleTimeout (opts w0)) (Options.TimeoutType (opts w0))
        (Some (mkChan (Options.MaxCap (opts w0))
                 (map Some (seq (length (heap w0))
                                (Z.to_nat (Options.InitCap (opts w0)))))))
        (Some DialNextTarget) (Some ConnClose)
  /\ IdleCount c = Options.InitCap (opts w0)
  /\ dials w = (dials w0 + Z.to_nat (Options.InitCap (opts w0)))%nat
  /\ length (heap w)
     = (length (heap w0) + Z.to_nat (Options.InitCap (opts w0)))%nat
  /\ closed w = closed w0.
Proof.
  destruct (validate (opts w0)) eqn:Hv.
  { unfold NewGRPCPool. rewrite Hv. intros H. inversion H. }
  intros H. apply NewGRPCPool_run in H; [| exact Hv]. destruct H as [_ H].
  apply validate_None in Hv. destruct Hv as (_ & Hcap & _).
  eapply init_conns_built in H; [| reflexivity].
  cbn in H. destruct H as (-> & HD & _ & HH & HC).
  split; [reflexivity |]. unfold IdleCount. cbn.
  rewrite length_map, length_seq.
  repeat split; auto. lia.
Qed.

Lemma NewGRPCPool_returns_full_store_witness :
  roomy_pool
  = GRPCPool.mk (60 * Second) IdleTimeoutType (Some (mkChan 3 [Some 0%nat]))
                (Some DialNextTarget) (Some ConnClose)
  /\ IdleCount roomy_pool = 1
  /\ dials roomy_world = 1%nat
  /\ length (heap roomy_world) = 1%nat
  /\ closed roomy_world = [].
Proof.
  exact (NewGRPCPool_returns_full_store quiet_env (world_of roomy_options)
           roomy_pool roomy_world NewGRPCPool_roomy).
Defined.

Lemma init_conns_succeeds (E : Env) (l : list string) :
  always_dials E ->
  l <> [] ->
  Forall (fun s => s <> EmptyString) l ->
  forall (n : nat) (pool : GRPCPool.t) (ch : chan) (w : World),
    GRPCPool.conns pool = Some ch ->
    GRPCPool.factory pool = Some DialNextTarget ->
    jitter_ok pool ->
    Z.of_nat (length (chan_buf ch)) + Z.of_nat n <= chan_cap ch ->
    deref_targets (opts w) = Done (Some l) ->
    exists c w', init_conns E n pool w = Done ((Some c, None), w').
Proof.
  intros Hdial Hne Hall. induction n as [|n IH]; intros pool ch w Hch Hf Hj Hroom Hd.
  - cbn. eauto.
  - cbn [init_conns]. rewrite Hf. cbn [call_factory].
    destruct (nextTarget_nonempty E w l Hd Hne) as (s & Hin & Hn).
    assert (Hs : s <> EmptyString).
    { rewrite Forall_forall in Hall. apply Hall.
      apply list_elem_of_In. exact Hin. }
    destruct (factory_body_of_target E w s _ Hn) as [_ Hfb].
    specialize (Hfb Hs).
    destruct (Hdial (dials (set_draws (S (draws w)) w)) s) as (cn & Hcn).
    rewrite Hcn in Hfb.
    unfold bind at 1. rewrite Hfb.
    destruct (createGrpcIdleConn_total E pool (Some cn)
                (set_dials (S (dials (set_draws (S (draws w)) w)))
                           (set_draws (S (draws w)) w)) Hj)
      as (w2 & t' & Hnew & _ & _).
    unfold bind at 1. rewrite Hnew.
    pose proof (createGrpcIdleConn_Done _ _ _ _ _ _ Hnew) as (_ & _ & Ho & _).
    unfold bind at 1, chan_send. rewrite Hch.
    destruct (Z.ltb_spec (Z.of_nat (length (chan_buf ch))) (chan_cap ch)); [| lia].
    cbn [ret].
    apply (IH _ (mkChan (chan_cap ch) (chan_buf ch ++ [Some (length (heap w))])) w2).
    + reflexivity.
    + exact Hf.
    + exact Hj.
    + cbn [chan_buf chan_cap]. rewrite length_app. cbn [length]. lia.
    + rewrite Ho. exact Hd.
Qed.

(** X4: construction succeeds whenever every dial does.  For options
    that [validate] accepts, whose MaxCap is a capacity [make] accepts, whose
    jitter bound under FixedTimeoutType is positive (IdleTimeout of at least
    2ms), and whose initial targets are a non-empty list of non-empty
    addresses, [NewGRPCPool] with a dialer that never fails returns a pool
    (no error, no panic, no blocking) that holds InitCap idle connections. *)
Theorem NewGRPCPool_succeeds
    (E : Env) (w0 : World) (l : list string) :
  validate (opts w0) = None ->
  8 * Options.MaxCap (opts w0) <= 2 ^ 48 - 96 ->
  (Options.TimeoutType (opts w0) = FixedTimeoutType ->
   0 < Z.quot (Milliseconds (Options.IdleTimeout (opts w0))) 2) ->
  always_dials E ->
  Options.InitTargets (opts w0) = Some l ->
  l <> [] ->
  Forall (fun s => s <> EmptyString) l ->
  exists c w,
    NewGRPCPool E w0 = Done ((Some c, None), w)
    /\ IdleCount c = Options.InitCap (opts w0).
Proof.
  intros Hv Hmax Hj Hdial Hl Hne Hall.
  pose proof (validate_None _ Hv) as (_ & Hcap & _).
  destruct (init_conns_succeeds E l Hdial Hne Hall
              (Z.to_nat (Options.InitCap (opts w0)))
              (pool_of (opts w0)) (mkChan (Options.MaxCap (opts w0)) [])
              (set_opts (Options.set_targets PInitTargets (opts w0)) w0))
    as (c & w & Hinit); try reflexivity.
  - exact Hj.
  - cbn. lia.
  - cbn. rewrite Hl. reflexivity.
  - exists c, w.
    assert (Hnew : NewGRPCPool E w0 = Done ((Some c, None), w)).
    { rewrite (NewGRPCPool_in_range E w0 Hv Hmax). exact Hinit. }
    split; [exact Hnew |].
    apply NewGRPCPool_Done in Hnew. tauto.
Qed.

Lemma NewGRPCPool_succeeds_witness :
  exists c w,
    NewGRPCPool quiet_env (world_of roomy_options) = Done ((Some c, None), w)
    /\ IdleCount c = 1.
Proof.
  apply (NewGRPCPool_succeeds quiet_env (world_of roomy_options)
           ["127.0.0.1:8080"%string]).
  - reflexivity.
  - cbn. lia.
  - intros H. discriminate H.
  - intros k target. exists k. reflexivity.
  - reflexivity.
  - discriminate.
  - constructor; [discriminate | constructor].
Defined.

Lemma store_conns_fresh (es : list GrpcIdleConn) :
  forall (h0 rest : list GrpcIdleConn),
    store_conns (h0 ++ es ++ rest) (map Some (seq (length h0) (length es)))
    = omap Conn es.
Proof.
  induction es as [|e es IH]; intros h0 rest; [reflexivity |].
  cbn [length seq map]. unfold store_conns in *. cbn [omap list_omap].
  rewrite lookup_app_r by lia. rewrite Nat.sub_diag. cbn [app lookup list_lookup].
  specialize (IH (h0 ++ [e]) rest).
  rewrite length_app, Nat.add_1_r, <- app_assoc in IH. cbn [app] in IH.
  rewrite IH. reflexivity.
Qed.

Lemma fresh_stored_ok (es : list GrpcIdleConn) :
  forall (h0 rest : list GrpcIdleConn),
    Forall (fun e => Conn e <> None) es ->
    Forall (stored_ok (h0 ++ es ++ rest)) (map Some (seq (length h0) (length es))).
Proof.
  induction es as [|e es IH]; intros h0 rest Hall; [constructor |].
  inversion Hall as [|? ? He Hall']; subst.
  cbn [length seq map]. constructor.
  - destruct (Conn e) as [cn|] eqn:Hc; [| contradiction].
    exists (length h0), e, cn. split; [reflexivity |]. split; [| exact Hc].
    rewrite lookup_app_r by lia. rewrite Nat.sub_diag. reflexivity.
  - specialize (IH (h0 ++ [e]) rest Hall').
    rewrite length_app, Nat.add_1_r, <- app_assoc in IH. exact IH.
Qed.

Lemma init_conns_abort_exact (E : Env) (n : nat) :
  forall (pool : GRPCPool.t) (ch : chan) (w : World)
         (h0 es0 : list GrpcIdleConn) (err : error) (w' : World),
    GRPCPool.conns pool = Some ch ->
    GRPCPool.factory pool = Some DialNextTarget ->
    GRPCPool.close pool = Some ConnClose ->
    heap w = h0 ++ es0 ->
    chan_buf ch = map Some (seq (length h0) (length es0)) ->
    Forall (fun e => Conn e <> None) es0 ->
    init_conns E n pool w = Done ((None, Some err), w') ->
    exists es,
      (length es < n)%nat
      /\ heap w' = h0 ++ es0 ++ es
      /\ Forall (fun e => Conn e <> None) es
      /\ closed w' = closed w ++ omap Conn (es0 ++ es).
Proof.
  induction n as [|n IH]; intros pool ch w h0 es0 err w' Hch Hf Hc Hh Hbuf Hall H;
    cbn in H.
  - inversion H.
  - mstep H. rewrite Hf in Hstep. cbn in Hstep.
    apply factory_body_Done in Hstep.
    destruct Hstep as (Hh1 & _ & Hcl1 & _ & Hr).
    destruct a as [cn [err0|]].
    + mstep H. inversion H; subst; clear H.
      unfold Close in Hstep. rewrite Hch, Hc in Hstep.
      mstep Hstep. destruct a as []. inversion Hstep; subst; clear Hstep.
      pose proof (fresh_stored_ok es0 h0 [] Hall) as Hok.
      rewrite app_nil_r in Hok.
      rewrite drain_closes in Hstep0 by (rewrite Hh1, Hh, Hbuf; exact Hok).
      inversion Hstep0; subst; clear Hstep0. cbn.
      exists []. rewrite !app_nil_r, Hh1, Hcl1, Hh, Hbuf.
      pose proof (store_conns_fresh es0 h0 []) as Hsc.
      rewrite app_nil_r in Hsc. rewrite Hsc.
      split; [cbn; lia |]. split; [reflexivity |]. split; [constructor | reflexivity].
    + destruct Hr as [(e0 & Hr)|(cn0 & Hr)]; [discriminate |].
      inversion Hr; subst cn; clear Hr.
      mstep H. apply createGrpcIdleConn_Done in Hstep.
      destruct Hstep as (-> & (t' & Hh') & _ & Hcl' & _).
      mstep H. unfold chan_send in Hstep. rewrite Hch in Hstep.
      destruct (Z.of_nat (length (chan_buf ch)) <? chan_cap ch); [| discriminate].
      inversion Hstep; subst; clear Hstep.
      apply (IH _ (mkChan (chan_cap ch) (chan_buf ch ++ [Some (length (heap w0))]))
                _ h0 (es0 ++ [mkIdle (Some cn0) t'])) in H.
      * destruct H as (es & Hlen & Hheap & Hes & Hclosed).
        exists (mkIdle (Some cn0) t' :: es).
        rewrite <- app_assoc in Hheap, Hclosed. cbn [app] in Hheap, Hclosed.
        split; [cbn; lia |]. split; [exact Hheap |].
        split; [constructor; [cbn; discriminate | exact Hes] |].
        rewrite Hclosed, Hcl', Hcl1. reflexivity.
      * reflexivity.
      * exact Hf.
      * exact Hc.
      * rewrite Hh', Hh1, Hh, app_assoc. reflexivity.
      * cbn [chan_buf]. rewrite Hbuf, Hh1, Hh, !length_app. cbn [length].
        rewrite Nat.add_1_r, seq_S, map_app. reflexivity.
      * apply Forall_app. split; [exact Hall |].
        constructor; [cbn; discriminate | constructor].
Qed.

(** X5: when [NewGRPCPool] returns an error, either [validate] gave it
    and the world is untouched, or a creation failed after fewer than InitCap
    wrappers were made.  Those wrappers are exactly what construction added
    to the heap, each holds a connection, and the connections closed during
    construction are theirs, one close each, in the order the wrappers were
    made; nothing else was closed. *)
Theorem NewGRPCPool_error_closes_created
    (E : Env) (w0 : World) (err : error) (w : World) :
  NewGRPCPool E w0 = Done ((None, Some err), w) ->
  (validate (opts w0) = Some err /\ w = w0)
  \/ (validate (opts w0) = None
      /\ exists es,
           Z.of_nat (length es) < Options.InitCap (opts w0)
           /\ heap w = heap w0 ++ es
           /\ Forall (fun e => Conn e <> None) es
           /\ closed w = closed w0 ++ omap Conn es).
Proof.
  destruct (validate (opts w0)) eqn:Hv.
  { unfold NewGRPCPool. rewrite Hv. intros H. inversion H; subst. left. auto. }
  intros H. right. split; [reflexivity |].
  apply NewGRPCPool_run in H; [| exact Hv]. destruct H as [_ H].
  apply validate_None in Hv. destruct Hv as (_ & Hcap & _).
  apply (init_conns_abort_exact E _ _ (mkChan (Options.MaxCap (opts w0)) [])
           _ (heap w0) []) in H.
  - destruct H as (es & Hlen & Hheap & Hes & Hclosed). cbn in *.
    exists es. split; [lia |]. auto.
  - reflexivity.
  - reflexivity.
  - reflexivity.
  - cbn. rewrite app_nil_r. reflexivity.
  - reflexivity.
  - constructor.
Qed.

(** X6: an empty target list that is not nil passes [validate], and for
    a MaxCap that [make] accepts construction then fails with [errTargets] at
    the first creation: nothing is dialed, made or closed, and no pool is
    returned. *)
Theorem NewGRPCPool_empty_targets (E : Env) (w0 : World) :
  validate (opts w0) = None ->
  8 * Options.MaxCap (opts w0) <= 2 ^ 48 - 96 ->
  Options.InitTargets (opts w0) = Some [] ->
  NewGRPCPool E w0
  = Done ((None, Some errTargets),
          set_opts (Options.set_targets PInitTargets (opts w0)) w0).
Proof.
  intros Hv Hmax Hl. pose proof (validate_None _ Hv) as (_ & Hcap & _).
  rewrite (NewGRPCPool_in_range E w0 Hv Hmax).
  destruct (Z.to_nat (Options.InitCap (opts w0))) as [|n] eqn:Hn; [lia |].
  cbn [init_conns pool_of GRPCPool.factory call_factory].
  unfold bind at 1, factory_body, bind at 1, nextTarget, deref_targets.
  cbn. rewrite Hl. cbn. destruct w0; reflexivity.
Qed.

Lemma NewGRPCPool_error_closes_created_witness :
  (validate (opts (world_of pair_options)) = Some (errExternal "dial failed")
   /\ aborted_world = world_of pair_options)
  \/ (validate (opts (world_of pair_options)) = None
      /\ exists es,
           Z.of_nat (length es) < Options.InitCap (opts (world_of pair_options))
           /\ heap aborted_world = heap (world_of pair_options) ++ es
           /\ Forall (fun e => Conn e <> None) es
           /\ closed aborted_world
              = closed (world_of pair_options) ++ omap Conn es).
Proof.
  apply (NewGRPCPool_error_closes_created flaky_env (world_of pair_options)
           (errExternal "dial failed") aborted_world).
  vm_compute. reflexivity.
Defined.

Lemma NewGRPCPool_empty_targets_witness :
  NewGRPCPool quiet_env (world_of options_empty_targets)
  = Done ((None, Some errTargets),
          set_opts (Options.set_targets PInitTargets
                      (opts (world_of options_empty_targets)))
                   (world_of options_empty_targets)).
Proof.
  apply (NewGRPCPool_empty_targets quiet_env (world_of options_empty_targets)).
  - reflexivity.
  - cbn. lia.
  - reflexivity.
Defined.

(** X18: [validate] puts no upper bound on MaxCap, [make] does.  For
    options that [validate] accepts with a MaxCap whose buffer of 8-byte
    pointers exceeds what [make] allows (8 * MaxCap > 2^48 - 96),
    [NewGRPCPool] panics when it makes the store: no pool, no error value,
    and nothing dialed. *)
Theorem NewGRPCPool_huge_MaxCap_panics (E : Env) (w0 : World) :
  validate (opts w0) = None ->
  2 ^ 48 - 96 < 8 * Options.MaxCap (opts w0) ->
  NewGRPCPool E w0 = Panic MakechanSize.
Proof.
  intros Hv Hbig. unfold NewGRPCPool. rewrite Hv.
  unfold bind at 1, makechan.
  destruct (Z.ltb_spec (2 ^ 48 - 96) (8 * Options.MaxCap (opts w0))) as [_|Hle];
    [| lia].
  rewrite orb_true_r. reflexivity.
Qed.

Lemma NewGRPCPool_huge_MaxCap_panics_witness :
  NewGRPCPool quiet_env (world_of huge_options) = Panic MakechanSize.
Proof.
  apply (NewGRPCPool_huge_MaxCap_panics quiet_env (world_of huge_options)).
  - reflexivity.
  - cbn. lia.
Defined.

(** ** Shutdown *)

(** X7: [Close] on an open pool closes the connection of every stored
    wrapper once, from the head of the store to its tail, closes nothing
    else, and leaves the pool closed: no channel, no closures, IdleCount 0. *)
Theorem Close_closes_every_idle
    (E : Env) (c : GRPCPool.t) (ch : chan) (w : World) :
  GRPCPool.conns c = Some ch ->
  pool_inv c w ->
  Close E c w
  = Done ((tt, GRPCPool.mk (GRPCPool.IdleTimeout c) (GRPCPool.timeoutType c)
                           None None None),
          set_closed (closed w ++ store_conns (heap w) (chan_buf ch)) w)
  /\ Z.of_nat (length (store_conns (heap w) (chan_buf ch))) = IdleCount c
  /\ IdleCount (GRPCPool.mk (GRPCPool.IdleTimeout c) (GRPCPool.timeoutType c)
                            None None None) = 0.
Proof.
  intros Hch Hinv. unfold pool_inv in Hinv. rewrite Hch in Hinv.
  destruct Hinv as (_ & Hcl & _ & Hst & _).
  split; [| split; [| reflexivity]].
  - unfold Close. rewrite Hch, Hcl. unfold bind.
    rewrite drain_closes by exact Hst. reflexivity.
  - unfold IdleCount. rewrite Hch. f_equal. apply store_conns_length, Hst.
Qed.

Lemma Close_closes_every_idle_witness :
  Close quiet_env aged_pool aged_world
  = Done ((tt, GRPCPool.mk (60 * Second) IdleTimeoutType None None None),
          set_closed [0%nat; 1%nat] aged_world)
  /\ Z.of_nat (length (store_conns (heap aged_world) [Some 0%nat; Some 1%nat]))
     = IdleCount aged_pool
  /\ IdleCount (GRPCPool.mk (60 * Second) IdleTimeoutType None None None) = 0.
Proof.
  exact (Close_closes_every_idle quiet_env aged_pool
           (mkChan 2 [Some 0%nat; Some 1%nat]) aged_world eq_refl aged_pool_inv).
Defined.

(** X8: once [Close] has returned, the pool stays closed: IdleCount is 0,
    every [Get] fails with [errClosed], another [Close] returns at once, and
    [Put] of a nil wrapper is rejected; none of these touches the world (no
    dial, no close). *)
Theorem closed_pool_stays_closed
    (E : Env) (c c' : GRPCPool.t) (w w' w2 : World) :
  Close E c w = Done ((tt, c'), w') ->
  IdleCount c' = 0
  /\ Get E c' w2 = Done (((None, Some errClosed), c'), w2)
  /\ Close E c' w2 = Done ((tt, c'), w2)
  /\ Put E c' None w2 = Done ((Some errRejected, c'), w2).
Proof.
  intros H. apply Close_Done in H. destruct H as (-> & _).
  repeat split.
Qed.

Lemma closed_pool_stays_closed_witness :
  IdleCount closed_pool = 0
  /\ Get quiet_env closed_pool readme_world
     = Done (((None, Some errClosed), closed_pool), readme_world)
  /\ Close quiet_env closed_pool readme_world
     = Done ((tt, closed_pool), readme_world)
  /\ Put quiet_env closed_pool None readme_world
     = Done ((Some errRejected, closed_pool), readme_world).
Proof.
  apply (closed_pool_stays_closed quiet_env readme_pool closed_pool
           readme_world (set_closed [0%nat] readme_world) readme_world).
  reflexivity.
Defined.

(** ** Release, exactly *)

(** The world [Put] leaves before it enqueues or closes: the wrapper at [p]
    is stamped, the clock has been read as often as the policy asks. *)
Lemma Put_stamps (E : Env) (c : GRPCPool.t) (w : World)
    (p : ptr) (e : GrpcIdleConn) :
  heap w !! p = Some e ->
  (if GRPCPool.timeoutType c =? IdleTimeoutType
   then now <- time_Now E ;; store_t p now
   else ret tt) w
  = Done (tt,
          mkWorld (opts w)
            (<[p := mkIdle (Conn e) (stamp_on_Put c (t e) (clock E (ticks w)))]>
               (heap w))
            (ticks w + ticks_of_Put c) (draws w) (dials w) (closed w)).
Proof.
  intros Hp. unfold stamp_on_Put, ticks_of_Put.
  destruct (GRPCPool.timeoutType c =? IdleTimeoutType).
  - unfold bind, time_Now, store_t. cbn. rewrite Hp.
    rewrite Nat.add_1_r. reflexivity.
  - cbn. rewrite Nat.add_0_r.
    replace (mkIdle (Conn e) (t e)) with e by (destruct e; reflexivity).
    rewrite list_insert_id by exact Hp. destruct w; reflexivity.
Qed.

(** X9: [Put] of a wrapper with a connection on an open pool, in full.
    The wrapper's timestamp becomes the clock reading under IdleTimeoutType
    and is left alone under any other policy, and no other wrapper changes.
    Then, if the store has room, the address is appended to the store and the
    result is nil; if the store is full, the connection is closed, the pool is
    unchanged and the result is that of the close, the timestamp having been
    refreshed all the same.  [Put] never dials and never draws. *)
Theorem Put_on_open_pool
    (E : Env) (c : GRPCPool.t) (ch : chan) (w : World)
    (p : ptr) (e : GrpcIdleConn) (cn : conn) :
  GRPCPool.conns c = Some ch ->
  GRPCPool.close c = Some ConnClose ->
  heap w !! p = Some e ->
  Conn e = Some cn ->
  let w1 :=
    mkWorld (opts w)
      (<[p := mkIdle (Some cn) (stamp_on_Put c (t e) (clock E (ticks w)))]>
         (heap w))
      (ticks w + ticks_of_Put c) (draws w) (dials w) (closed w) in
  (Z.of_nat (length (chan_buf ch)) < chan_cap ch ->
   Put E c (Some p) w
   = Done ((None,
            GRPCPool.set_conns
              (Some (mkChan (chan_cap ch) (chan_buf ch ++ [Some p]))) c),
           w1))
  /\ (chan_cap ch <= Z.of_nat (length (chan_buf ch)) ->
      Put E c (Some p) w
      = Done ((close_result E cn, c), set_closed (closed w ++ [cn]) w1))
  /\ (GRPCPool.timeoutType c <> IdleTimeoutType -> heap w1 = heap w).
Proof.
  intros Hch Hcl Hp Hcn w1.
  assert (Hput : Put E c (Some p) w
                 = (if Z.of_nat (length (chan_buf ch)) <? chan_cap ch
                    then ret (None, GRPCPool.set_conns
                                      (Some (mkChan (chan_cap ch)
                                                    (chan_buf ch ++ [Some p]))) c)
                    else r <- call_close E (GRPCPool.close c) (Conn e) ;; ret (r, c))
                     w1).
  { unfold Put. unfold bind at 1, load. rewrite Hp, Hcn, Hch.
    unfold bind at 1. rewrite (Put_stamps E c w p e Hp). rewrite Hcn.
    reflexivity. }
  split; [| split].
  - intros Hlt. rewrite Hput.
    destruct (Z.ltb_spec (Z.of_nat (length (chan_buf ch))) (chan_cap ch)); [| lia].
    reflexivity.
  - intros Hfull. rewrite Hput.
    destruct (Z.ltb_spec (Z.of_nat (length (chan_buf ch))) (chan_cap ch)); [lia |].
    rewrite Hcl, Hcn. reflexivity.
  - intros Hni. subst w1. cbn [heap]. unfold stamp_on_Put.
    destruct (Z.eqb_spec (GRPCPool.timeoutType c) IdleTimeoutType); [contradiction |].
    rewrite <- Hcn.
    replace (mkIdle (Conn e) (t e)) with e by (destruct e; reflexivity).
    apply list_insert_id. exact Hp.
Qed.

Lemma Put_on_open_pool_witness :
  Put quiet_env roomy_pool (Some 0%nat) roomy_world
  = Done ((None,
           GRPCPool.set_conns (Some (mkChan 3 [Some 0%nat; Some 0%nat])) roomy_pool),
          mkWorld (opts roomy_world) [mkIdle (Some 0%nat) 1000] 2 1 1 []).
Proof.
  pose proof (Put_on_open_pool quiet_env roomy_pool (mkChan 3 [Some 0%nat])
                roomy_world 0%nat (mkIdle (Some 0%nat) 1000) 0%nat
                eq_refl eq_refl eq_refl eq_refl) as H.
  cbv zeta in H. destruct H as [H _].
  apply H. cbn. lia.
Defined.

(** ** Acquire, in general *)

(** X10: [Get] only ever takes from the store.  Whatever it returns, the
    IdleCount afterwards is at most what it was, the channel keeps its
    capacity, an open pool stays open and a closed one closed, and the
    policy, the timeout and the closures of the pool are unchanged. *)
Theorem Get_never_grows_store
    (E : Env) (c c' : GRPCPool.t) (w w' : World)
    (r : option ptr * option error) :
  Get E c w = Done ((r, c'), w') ->
  IdleCount c' <= IdleCount c
  /\ (forall m, cap_is m c -> cap_is m c')
  /\ (GRPCPool.conns c = None <-> GRPCPool.conns c' = None)
  /\ GRPCPool.IdleTimeout c' = GRPCPool.IdleTimeout c
  /\ GRPCPool.timeoutType c' = GRPCPool.timeoutType c
  /\ GRPCPool.factory c' = GRPCPool.factory c
  /\ GRPCPool.close c' = GRPCPool.close c.
Proof.
  unfold Get, IdleCount, cap_is.
  destruct (GRPCPool.conns c) as [ch|] eqn:Hch.
  - intros H. mstep H. destruct a as [r0 rest].
    apply Get_loop_Done in Hstep. destruct Hstep as (_ & (pre & Hpre) & _).
    inversion H; subst; clear H. cbn.
    rewrite Hpre, length_app.
    split; [lia |]. split.
    + intros m Hm ch' Heq. inversion Heq; subst. cbn. apply Hm. reflexivity.
    + repeat split; intros; discriminate.
  - intros H. inversion H; subst. rewrite Hch.
    split; [lia |]. repeat split; auto.
Qed.

Lemma Get_never_grows_store_witness :
  IdleCount (GRPCPool.set_conns (Some (mkChan 2 [])) aged_pool)
    <= IdleCount aged_pool.
Proof.
  pose proof (Get_never_grows_store aged_env aged_pool
                (GRPCPool.set_conns (Some (mkChan 2 [])) aged_pool)
                aged_world
                (mkWorld (opts aged_world) (heap aged_world) 4 2 2 [0%nat])
                (Some 1%nat, None)) as H.
  apply H. vm_compute. reflexivity.
Defined.

Lemma factory_body_returns (E : Env) (w : World) (ts : slice) :
  deref_targets (opts w) = Done ts ->
  exists r w', factory_body E w = Done (r, w').
Proof.
  intros Hd. unfold factory_body, bind, nextTarget. rewrite Hd.
  destruct (len ts <=? 0).
  - cbn. eauto.
  - unfold bind, rand_Int, rand_Int63, ret.
    destruct (String.eqb _ _); [eauto |].
    unfold grpc_DialContext. destruct (dialer E _ _); eauto.
Qed.

Lemma Get_loop_returns_ok (E : Env) (c : GRPCPool.t) (ts : slice) :
  GRPCPool.factory c = Some DialNextTarget ->
  GRPCPool.close c = Some ConnClose ->
  jitter_ok c ->
  forall (buf : list (option ptr)) (w : World),
    Forall (stored_ok (heap w)) buf ->
    deref_targets (opts w) = Done ts ->
    exists r rest w',
      Get_loop E c buf w = Done ((r, rest), w')
      /\ ((exists p e cn, r = (Some p, None)
                          /\ heap w' !! p = Some e /\ Conn e = Some cn)
          \/ (exists err, r = (None, Some err))).
Proof.
  intros Hf Hcl Hj. induction buf as [|x buf IH]; intros w Hst Hd.
  - cbn [Get_loop]. rewrite Hf. cbn [call_factory].
    destruct (factory_body_returns E w ts Hd) as (r & w1 & Hfb).
    unfold bind at 1. rewrite Hfb.
    pose proof (factory_body_Done _ _ _ _ Hfb) as (_ & _ & _ & _ & Hr).
    destruct Hr as [(err & ->)|(cn & ->)].
    + eexists _, _, _. split; [reflexivity |]. right. eauto.
    + destruct (createGrpcIdleConn_total E c (Some cn) w1 Hj)
        as (w2 & t' & Hnew & Hh & _).
      unfold bind. rewrite Hnew.
      eexists _, _, _. split; [reflexivity |]. left.
      exists (length (heap w1)), (mkIdle (Some cn) t'), cn.
      split; [reflexivity |]. split; [| reflexivity].
      rewrite Hh, lookup_app_r by lia. rewrite Nat.sub_diag. reflexivity.
  - inversion Hst as [|? ? Hx Hst']; subst.
    destruct Hx as (p & e & cn & -> & Hp & Hcn).
    cbn [Get_loop]. unfold bind at 1, load. rewrite Hp, Hcn.
    destruct (0 <? GRPCPool.IdleTimeout c).
    + unfold bind at 1, time_Now.
      destruct (t e + GRPCPool.IdleTimeout c <? clock E (ticks w)).
      * unfold bind at 1. rewrite Hcl. cbn [call_close ClientConn_Close].
        apply IH; [exact Hst' | exact Hd].
      * eexists _, _, _. split; [reflexivity |]. left. exists p, e, cn. auto.
    + eexists _, _, _. split; [reflexivity |]. left. exists p, e, cn. auto.
Qed.

(** X11: on every pool a client can reach, [Get] returns: it neither
    panics nor blocks.  What it returns is either a wrapper that holds a
    connection, with a nil error, or no wrapper and an error; never both,
    never neither. *)
Theorem Get_returns_wrapper_or_error
    (E : Env) (w0 : World) (c : GRPCPool.t) (w : World) :
  reachable E w0 c w ->
  exists r c' w',
    Get E c w = Done ((r, c'), w')
    /\ ((exists p e cn, r = (Some p, None)
                        /\ heap w' !! p = Some e /\ Conn e = Some cn)
        \/ (exists err, r = (None, Some err))).
Proof.
  intros Hr. pose proof (reachable_opts _ _ _ _ Hr) as Ho.
  apply reachable_inv in Hr. destruct Hr as [Hinv _].
  unfold pool_inv in Hinv. unfold Get.
  destruct (GRPCPool.conns c) as [ch|].
  - destruct Hinv as (Hf & Hcl & _ & Hst & Hj).
    destruct (Get_loop_returns_ok E c (Options.InitTargets (opts w0)) Hf Hcl Hj
                (chan_buf ch) w Hst) as (r & rest & w' & HG & Hshape).
    { rewrite Ho. reflexivity. }
    unfold bind. rewrite HG. eexists _, _, _. split; [reflexivity | exact Hshape].
  - eexists _, _, _. split; [reflexivity |]. right. eauto.
Qed.

Lemma Get_returns_wrapper_or_error_witness :
  exists r c' w',
    Get quiet_env readme_pool readme_world = Done ((r, c'), w')
    /\ ((exists p e cn, r = (Some p, None)
                        /\ heap w' !! p = Some e /\ Conn e = Some cn)
        \/ (exists err, r = (None, Some err))).
Proof.
  apply (Get_returns_wrapper_or_error quiet_env (world_of readme_options)).
  apply reach_new. exact NewGRPCPool_readme.
Defined.

(** ** Release and acquire together *)

Lemma Put_enqueues (E : Env) (c : GRPCPool.t) (ch : chan) (w : World)
    (p : ptr) (e : GrpcIdleConn) (cn : conn) :
  GRPCPool.conns c = Some ch ->
  Z.of_nat (length (chan_buf ch)) < chan_cap ch ->
  heap w !! p = Some e ->
  Conn e = Some cn ->
  Put E c (Some p) w
  = Done ((None,
           GRPCPool.set_conns
             (Some (mkChan (chan_cap ch) (chan_buf ch ++ [Some p]))) c),
          mkWorld (opts w)
            (<[p := mkIdle (Some cn) (stamp_on_Put c (t e) (clock E (ticks w)))]>
               (heap w))
            (ticks w + ticks_of_Put c) (draws w) (dials w) (closed w)).
Proof.
  intros Hch Hlt Hp Hcn.
  unfold Put. unfold bind at 1, load. rewrite Hp, Hcn, Hch.
  unfold bind at 1. rewrite (Put_stamps E c w p e Hp). rewrite Hcn.
  destruct (Z.ltb_spec (Z.of_nat (length (chan_buf ch))) (chan_cap ch)); [| lia].
  reflexivity.
Qed.

(** [Get] on a store whose head is not expired, or with the timeout
    disabled: the head is returned and the clock is read only if the timeout
    is positive. *)
Lemma Get_head (E : Env) (c : GRPCPool.t) (ch : chan) (w : World)
    (p : ptr) (rest : list (option ptr)) (e : GrpcIdleConn) (cn : conn) :
  GRPCPool.conns c = Some ch ->
  chan_buf ch = Some p :: rest ->
  heap w !! p = Some e ->
  Conn e = Some cn ->
  GRPCPool.IdleTimeout c <= 0
  \/ clock E (ticks w) - t e <= GRPCPool.IdleTimeout c ->
  Get E c w
  = Done (((Some p, None),
           GRPCPool.set_conns (Some (mkChan (chan_cap ch) rest)) c),
          set_ticks (ticks w + (if 0 <? GRPCPool.IdleTimeout c then 1%nat else 0%nat)) w).
Proof.
  intros Hch Hbuf Hp Hcn Hage. unfold Get. rewrite Hch, Hbuf.
  cbn [Get_loop]. unfold bind at 1. unfold bind at 1, load. rewrite Hp, Hcn.
  destruct (Z.ltb_spec 0 (GRPCPool.IdleTimeout c)) as [HT|HT].
  - destruct Hage as [Hage|Hage]; [lia |].
    unfold bind, time_Now.
    destruct (Z.ltb_spec (t e + GRPCPool.IdleTimeout c) (clock E (ticks w))); [lia |].
    cbn. rewrite Nat.add_1_r. reflexivity.
  - cbn. rewrite Nat.add_0_r. destruct w; reflexivity.
Qed.

(** X12: release then acquire is a round trip.  On an open pool with an
    empty store, [Put] of a wrapper stores it (IdleCount 1) and the next
    [Get] returns that same wrapper and leaves the store empty again,
    provided the timeout is disabled or the wrapper's timestamp after [Put]
    is at most IdleTimeout before the clock reading [Get] takes.  Nothing is
    dialed and nothing is closed on the way. *)
Theorem Put_then_Get_round_trip
    (E : Env) (c : GRPCPool.t) (ch : chan) (w : World)
    (p : ptr) (e : GrpcIdleConn) (cn : conn) :
  GRPCPool.conns c = Some ch ->
  chan_buf ch = [] ->
  0 < chan_cap ch ->
  heap w !! p = Some e ->
  Conn e = Some cn ->
  GRPCPool.IdleTimeout c <= 0
  \/ clock E (ticks w + ticks_of_Put c)
     - stamp_on_Put c (t e) (clock E (ticks w)) <= GRPCPool.IdleTimeout c ->
  exists c1 w1 w2,
    Put E c (Some p) w = Done ((None, c1), w1)
    /\ IdleCount c1 = 1
    /\ Get E c1 w1
       = Done (((Some p, None),
                GRPCPool.set_conns (Some (mkChan (chan_cap ch) [])) c), w2)
    /\ closed w2 = closed w
    /\ dials w2 = dials w.
Proof.
  intros Hch Hbuf Hcap Hp Hcn Hage.
  pose proof (Put_enqueues E c ch w p e cn Hch
                ltac:(rewrite Hbuf; cbn; lia) Hp Hcn) as HP.
  rewrite Hbuf in HP. cbn [app] in HP.
  set (e1 := mkIdle (Some cn) (stamp_on_Put c (t e) (clock E (ticks w)))) in *.
  set (c1 := GRPCPool.set_conns (Some (mkChan (chan_cap ch) [Some p])) c) in *.
  set (w1 := mkWorld (opts w) (<[p := e1]> (heap w))
                     (ticks w + ticks_of_Put c) (draws w) (dials w) (closed w)) in *.
  assert (Hp1 : heap w1 !! p = Some e1).
  { apply list_lookup_insert_eq. eapply lookup_lt_Some; eauto. }
  pose proof (Get_head E c1 (mkChan (chan_cap ch) [Some p]) w1 p [] e1 cn
                eq_refl eq_refl Hp1 eq_refl Hage) as HG.
  exists c1, w1,
    (set_ticks (ticks w1 + (if 0 <? GRPCPool.IdleTimeout c1 then 1%nat else 0%nat)) w1).
  split; [exact HP |]. split; [reflexivity |].
  split; [exact HG |]. split; reflexivity.
Qed.

Lemma Put_then_Get_round_trip_witness :
  exists c1 w1 w2,
    Put (ticking_env Second) lent_pool (Some 0%nat) lent_world
      = Done ((None, c1), w1)
    /\ IdleCount c1 = 1
    /\ Get (ticking_env Second) c1 w1
       = Done (((Some 0%nat, None),
                GRPCPool.set_conns (Some (mkChan 2 [])) lent_pool), w2)
    /\ closed w2 = closed lent_world
    /\ dials w2 = dials lent_world.
Proof.
  apply (Put_then_Get_round_trip (ticking_env Second) lent_pool (mkChan 2 [])
           lent_world 0%nat (mkIdle (Some 0%nat) 1000) 0%nat);
    try reflexivity.
  right. vm_compute. discriminate.
Defined.

Lemma Get_loop_miss_Done (E : Env) (c : GRPCPool.t) w r rest w' :
  Get_loop E c [] w = Done ((r, rest), w') ->
  rest = [] /\ closed w' = closed w
  /\ (fst r = None \/ fst r = Some (length (heap w))).
Proof.
  cbn [Get_loop]. intros H. mstep H.
  destruct (GRPCPool.factory c) as [[]|]; [| discriminate].
  cbn in Hstep. apply factory_body_Done in Hstep.
  destruct Hstep as (Hh & _ & Hc & _ & _).
  destruct a as [cn [err|]].
  - inversion H; subst. cbn. auto.
  - mstep H. apply createGrpcIdleConn_Done in Hstep.
    destruct Hstep as (-> & _ & _ & Hc' & _).
    inversion H; subst. cbn. rewrite Hh. split; [reflexivity |].
    split; [congruence | auto].
Qed.

(** X13: under IdleTimeoutType a released wrapper that is left in the
    store for longer than IdleTimeout is not handed out again.  On an open
    pool with an empty store, [Put] stamps and stores the wrapper; a [Get]
    whose clock reading is more than IdleTimeout later then returns, having
    closed the wrapper's connection and nothing else and left the store
    empty.  Its result is not the released wrapper: it is either an error,
    with the heap as [Put] left it, or a new wrapper at a fresh address around
    the connection that one dial of the picked target produced. *)
Theorem released_wrapper_expires
    (E : Env) (c : GRPCPool.t) (ch : chan) (w : World) (ts : slice)
    (p : ptr) (e : GrpcIdleConn) (cn : conn) :
  GRPCPool.timeoutType c = IdleTimeoutType ->
  GRPCPool.conns c = Some ch ->
  GRPCPool.factory c = Some DialNextTarget ->
  GRPCPool.close c = Some ConnClose ->
  deref_targets (opts w) = Done ts ->
  chan_buf ch = [] ->
  0 < chan_cap ch ->
  heap w !! p = Some e ->
  Conn e = Some cn ->
  0 < GRPCPool.IdleTimeout c ->
  clock E (S (ticks w)) - clock E (ticks w) > GRPCPool.IdleTimeout c ->
  exists c1 w1 r c2 w2,
    Put E c (Some p) w = Done ((None, c1), w1)
    /\ IdleCount c1 = 1
    /\ Get E c1 w1 = Done ((r, c2), w2)
    /\ fst r <> Some p
    /\ closed w2 = closed w ++ [cn]
    /\ IdleCount c2 = 0
    /\ ((exists err, r = (None, Some err) /\ heap w2 = heap w1)
        \/ (exists cn2,
              r = (Some (length (heap w)), None)
              /\ dialer E (dials w) (picked_target E w ts) = inl cn2
              /\ heap w2
                 = heap w1 ++ [mkIdle (Some cn2) (clock E (S (S (ticks w))))]
              /\ dials w2 = S (dials w))).
Proof.
  intros Hty Hch Hf Hcl Hd Hbuf Hcap Hp Hcn HT Hlate.
  pose proof (Put_enqueues E c ch w p e cn Hch
                ltac:(rewrite Hbuf; cbn; lia) Hp Hcn) as HP.
  rewrite Hbuf in HP. cbn [app] in HP.
  unfold stamp_on_Put, ticks_of_Put in HP. rewrite Hty in HP. cbn in HP.
  set (e1 := mkIdle (Some cn) (clock E (ticks w))) in *.
  set (c1 := GRPCPool.set_conns (Some (mkChan (chan_cap ch) [Some p])) c) in *.
  set (w1 := mkWorld (opts w) (<[p := e1]> (heap w))
                     (ticks w + 1) (draws w) (dials w) (closed w)) in *.
  set (c2 := GRPCPool.set_conns (Some (mkChan (chan_cap ch) [])) c1).
  set (w1' := mkWorld (opts w) (<[p := e1]> (heap w))
                      (S (S (ticks w))) (draws w) (dials w) (closed w ++ [cn])).
  assert (Hlt : (p < length (heap w))%nat) by (eapply lookup_lt_Some; eauto).
  assert (Hp1 : heap w1 !! p = Some e1) by (apply list_lookup_insert_eq; exact Hlt).
  assert (Hty1 : GRPCPool.timeoutType c1 = IdleTimeoutType) by exact Hty.
  assert (Hmiss : Get E c1 w1
                  = (r <- factory_body E ;;
                     match r with
                     | (_, Some err) => ret ((None, Some err), c2)
                     | (cn2, None) =>
                         q <- createGrpcIdleConn E c1 cn2 ;;
                         ret ((Some q, None), c2)
                     end) w1').
  { unfold Get. cbn [c1 GRPCPool.conns GRPCPool.set_conns chan_buf chan_cap].
    fold c1. unfold bind at 1.
    change [Some p] with (map Some [p] ++ []).
    rewrite (Get_loop_evicts E c1 [] HT Hcl [p] [cn] w1).
    2:{ cbn. split; [| exact I]. exists e1.
        split; [exact Hp1 |]. split; [reflexivity |].
        cbn. rewrite Nat.add_1_r. lia. }
    cbn [w1 opts heap ticks draws dials closed length].
    replace (ticks w + 1 + 1)%nat with (S (S (ticks w))) by lia. fold w1'.
    cbn [Get_loop]. cbn [c1 GRPCPool.factory GRPCPool.set_conns].
    rewrite Hf. cbn [call_factory]. fold c1. unfold bind.
    destruct (factory_body E w1') as [[[cn2 [err|]] w2]| |]; try reflexivity.
    destruct (createGrpcIdleConn E c1 cn2 w2) as [[q w3]| |]; reflexivity. }
  assert (Hd1 : deref_targets (opts w1') = Done ts) by exact Hd.
  destruct (factory_body_exact E w1' ts Hd1) as [Hz Hpick].
  change (picked_target E w1' ts) with (picked_target E w ts) in Hpick.
  change (dials w1') with (dials w) in Hpick.
  change (draws w1') with (draws w) in Hpick.
  assert (Hlen : len ts = 0 \/ 0 < len ts).
  { destruct ts as [l|]; cbn; lia. }
  destruct Hlen as [H0|Hpos].
  { exists c1, w1, (None, Some errTargets), c2, w1'.
    split; [exact HP |]. split; [reflexivity |].
    split; [rewrite Hmiss; unfold bind; rewrite (Hz H0); reflexivity |].
    split; [cbn; discriminate |]. split; [reflexivity |]. split; [reflexivity |].
    left. exists errTargets. split; reflexivity. }
  destruct (Hpick Hpos) as [Hempty Hdial].
  destruct (String.eqb_spec (picked_target E w ts) EmptyString) as [He|Hne].
  { exists c1, w1, (None, Some errTargets), c2, (set_draws (S (draws w)) w1').
    split; [exact HP |]. split; [reflexivity |].
    split; [rewrite Hmiss; unfold bind; rewrite (Hempty He); reflexivity |].
    split; [cbn; discriminate |]. split; [reflexivity |]. split; [reflexivity |].
    left. exists errTargets. split; reflexivity. }
  specialize (Hdial Hne).
  destruct (dialer E (dials w) (picked_target E w ts)) as [cn2|err] eqn:Hdl.
  - exists c1, w1, (Some (length (heap w)), None), c2,
      (mkWorld (opts w)
               (<[p := e1]> (heap w) ++ [mkIdle (Some cn2) (clock E (S (S (ticks w))))])
               (S (S (S (ticks w)))) (S (draws w)) (S (dials w))
               (closed w ++ [cn])).
    split; [exact HP |]. split; [reflexivity |].
    split.
    { rewrite Hmiss. unfold bind. rewrite Hdial.
      rewrite (createGrpcIdleConn_idle E c1 _ _ Hty1).
      cbn. rewrite length_insert. reflexivity. }
    split; [cbn; intros Heq; inversion Heq; lia |].
    split; [reflexivity |]. split; [reflexivity |].
    right. exists cn2. repeat split.
  - exists c1, w1, (None, Some err), c2,
      (set_dials (S (dials w)) (set_draws (S (draws w)) w1')).
    split; [exact HP |]. split; [reflexivity |].
    split; [rewrite Hmiss; unfold bind; rewrite Hdial; reflexivity |].
    split; [cbn; discriminate |]. split; [reflexivity |]. split; [reflexivity |].
    left. exists err. split; reflexivity.
Qed.

Lemma released_wrapper_expires_witness :
  exists c1 w1 r c2 w2,
    Put (ticking_env (61 * Second)) lent_pool (Some 0%nat) lent_world
      = Done ((None, c1), w1)
    /\ IdleCount c1 = 1
    /\ Get (ticking_env (61 * Second)) c1 w1 = Done ((r, c2), w2)
    /\ fst r <> Some 0%nat
    /\ closed w2 = closed lent_world ++ [0%nat]
    /\ IdleCount c2 = 0
    /\ ((exists err, r = (None, Some err) /\ heap w2 = heap w1)
        \/ (exists cn2,
              r = (Some (length (heap lent_world)), None)
              /\ dialer (ticking_env (61 * Second)) (dials lent_world)
                   (picked_target (ticking_env (61 * Second)) lent_world
                      (Some ["127.0.0.1:8080"%string]))
                 = inl cn2
              /\ heap w2
                 = heap w1
                   ++ [mkIdle (Some cn2)
                         (clock (ticking_env (61 * Second))
                            (S (S (ticks lent_world))))]
              /\ dials w2 = S (dials lent_world))).
Proof.
  apply (released_wrapper_expires (ticking_env (61 * Second)) lent_pool
           (mkChan 2 []) lent_world (Some ["127.0.0.1:8080"%string])
           0%nat (mkIdle (Some 0%nat) 1000) 0%nat);
    reflexivity.
Defined.

(** X14: a wrapper released twice is handed out twice.  On an open pool
    with an empty store of capacity at least 2, two calls of [Put] with the
    same wrapper followed by two calls of [Get] return that same wrapper from
    both [Get]s (two callers then share one connection), provided the timeout
    is disabled or the wrapper is not expired at either check. *)
Theorem double_Put_hands_out_twice
    (E : Env) (c : GRPCPool.t) (ch : chan) (w : World)
    (p : ptr) (e : GrpcIdleConn) (cn : conn) :
  GRPCPool.conns c = Some ch ->
  chan_buf ch = [] ->
  2 <= chan_cap ch ->
  heap w !! p = Some e ->
  Conn e = Some cn ->
  GRPCPool.IdleTimeout c <= 0
  \/ (clock E (ticks w + ticks_of_Put c + ticks_of_Put c)
      - stamp_on_Put c (t e) (clock E (ticks w + ticks_of_Put c))
      <= GRPCPool.IdleTimeout c
      /\ clock E (S (ticks w + ticks_of_Put c + ticks_of_Put c))
         - stamp_on_Put c (t e) (clock E (ticks w + ticks_of_Put c))
         <= GRPCPool.IdleTimeout c) ->
  exists c1 w1 c2 w2 c3 w3 c4 w4,
    Put E c (Some p) w = Done ((None, c1), w1)
    /\ Put E c1 (Some p) w1 = Done ((None, c2), w2)
    /\ IdleCount c2 = 2
    /\ Get E c2 w2 = Done (((Some p, None), c3), w3)
    /\ Get E c3 w3 = Done (((Some p, None), c4), w4)
    /\ IdleCount c4 = 0.
Proof.
  intros Hch Hbuf Hcap Hp Hcn Hage.
  assert (Hlt : (p < length (heap w))%nat) by (eapply lookup_lt_Some; eauto).
  pose proof (Put_enqueues E c ch w p e cn Hch
                ltac:(rewrite Hbuf; cbn; lia) Hp Hcn) as HP1.
  rewrite Hbuf in HP1. cbn [app] in HP1.
  set (e1 := mkIdle (Some cn) (stamp_on_Put c (t e) (clock E (ticks w)))) in *.
  set (c1 := GRPCPool.set_conns (Some (mkChan (chan_cap ch) [Some p])) c) in *.
  set (w1 := mkWorld (opts w) (<[p := e1]> (heap w))
                     (ticks w + ticks_of_Put c) (draws w) (dials w) (closed w)) in *.
  assert (Hp1 : heap w1 !! p = Some e1) by (apply list_lookup_insert_eq; exact Hlt).
  pose proof (Put_enqueues E c1 (mkChan (chan_cap ch) [Some p]) w1 p e1 cn
                eq_refl ltac:(cbn; lia) Hp1 eq_refl) as HP2.
  cbn [chan_buf chan_cap app] in HP2.
  set (e2 := mkIdle (Some cn) (stamp_on_Put c1 (t e1) (clock E (ticks w1)))) in *.
  set (c2 := GRPCPool.set_conns (Some (mkChan (chan_cap ch) [Some p; Some p])) c1) in *.
  set (w2 := mkWorld (opts w1) (<[p := e2]> (heap w1))
                     (ticks w1 + ticks_of_Put c1) (draws w1) (dials w1) (closed w1)) in *.
  assert (Hp2 : heap w2 !! p = Some e2).
  { apply list_lookup_insert_eq. cbn. rewrite length_insert. exact Hlt. }
  assert (Hstamp : t e2 = stamp_on_Put c (t e) (clock E (ticks w + ticks_of_Put c))).
  { cbn. unfold stamp_on_Put. cbn.
    destruct (GRPCPool.timeoutType c =? IdleTimeoutType); reflexivity. }
  assert (Hage1 : GRPCPool.IdleTimeout c2 <= 0
                  \/ clock E (ticks w2) - t e2 <= GRPCPool.IdleTimeout c2).
  { rewrite Hstamp. cbn. destruct Hage as [H|[H _]]; [left | right]; exact H. }
  pose proof (Get_head E c2 (mkChan (chan_cap ch) [Some p; Some p]) w2 p [Some p]
                e2 cn eq_refl eq_refl Hp2 eq_refl Hage1) as HG1.
  set (c3 := GRPCPool.set_conns (Some (mkChan (chan_cap ch) [Some p])) c2) in *.
  set (w3 := set_ticks (ticks w2 + (if 0 <? GRPCPool.IdleTimeout c2
                                    then 1%nat else 0%nat)) w2) in *.
  assert (Hage2 : GRPCPool.IdleTimeout c3 <= 0
                  \/ clock E (ticks w3) - t e2 <= GRPCPool.IdleTimeout c3).
  { rewrite Hstamp. cbn.
    destruct (Z.ltb_spec 0 (GRPCPool.IdleTimeout c)) as [HT|HT]; [| left; exact HT].
    destruct Hage as [H|[_ H]]; [left; exact H | right].
    rewrite Nat.add_1_r. exact H. }
  pose proof (Get_head E c3 (mkChan (chan_cap ch) [Some p]) w3 p [] e2 cn
                eq_refl eq_refl Hp2 eq_refl Hage2) as HG2.
  eexists c1, w1, c2, w2, c3, w3, _, _.
  split; [exact HP1 |]. split; [exact HP2 |]. split; [reflexivity |].
  split; [exact HG1 |]. split; [exact HG2 |]. reflexivity.
Qed.

Lemma double_Put_hands_out_twice_witness :
  exists c1 w1 c2 w2 c3 w3 c4 w4,
    Put (ticking_env Second) lent_pool (Some 0%nat) lent_world
      = Done ((None, c1), w1)
    /\ Put (ticking_env Second) c1 (Some 0%nat) w1 = Done ((None, c2), w2)
    /\ IdleCount c2 = 2
    /\ Get (ticking_env Second) c2 w2 = Done (((Some 0%nat, None), c3), w3)
    /\ Get (ticking_env Second) c3 w3 = Done (((Some 0%nat, None), c4), w4)
    /\ IdleCount c4 = 0.
Proof.
  apply (double_Put_hands_out_twice (ticking_env Second) lent_pool (mkChan 2 [])
           lent_world 0%nat (mkIdle (Some 0%nat) 1000) 0%nat);
    try reflexivity.
  cbn. lia.
Defined.

(** ** Defaults *)

(** X15: the defaults of [NewOptions] are usable once targets are given.
    As returned, the options are rejected by [validate] (no targets); with
    [InitTargets] set to any non-empty list of non-empty addresses and a
    dialer that never fails, [NewGRPCPool] returns a pool of 5 idle
    connections in a store of capacity 100, under IdleTimeoutType with a
    timeout of 60s. *)
Theorem NewOptions_defaults_usable (E : Env) (l : list string) :
  always_dials E ->
  l <> [] ->
  Forall (fun s => s <> EmptyString) l ->
  validate NewOptions = Some errInvalid
  /\ exists c w,
       NewGRPCPool E (world_of (with_InitTargets (Some l) NewOptions))
       = Done ((Some c, None), w)
       /\ IdleCount c = 5
       /\ cap_is 100 c
       /\ GRPCPool.IdleTimeout c = 60 * Second
       /\ GRPCPool.timeoutType c = IdleTimeoutType.
Proof.
  intros Hdial Hne Hall. split; [reflexivity |].
  set (o := with_InitTargets (Some l) NewOptions).
  destruct (init_conns_succeeds E l Hdial Hne Hall 5 (pool_of o)
              (mkChan 100 [])
              (set_opts (Options.set_targets PInitTargets o) (world_of o)))
    as (c & w & Hinit); try reflexivity.
  - intros H. discriminate H.
  - cbn. lia.
  - exists c, w.
    assert (Hnew : NewGRPCPool E (world_of o) = Done ((Some c, None), w)).
    { exact Hinit. }
    split; [exact Hnew |].
    apply NewGRPCPool_Done in Hnew.
    destruct Hnew as (_ & _ & Hcap & _ & Hn & Ht & Hty).
    repeat split; assumption.
Qed.

Lemma NewOptions_defaults_usable_witness :
  validate NewOptions = Some errInvalid
  /\ exists c w,
       NewGRPCPool quiet_env
         (world_of (with_InitTargets (Some ["127.0.0.1:8080"%string]) NewOptions))
       = Done ((Some c, None), w)
       /\ IdleCount c = 5
       /\ cap_is 100 c
       /\ GRPCPool.IdleTimeout c = 60 * Second
       /\ GRPCPool.timeoutType c = IdleTimeoutType.
Proof.
  apply (NewOptions_defaults_usable quiet_env ["127.0.0.1:8080"%string]).
  - intros k target. exists k. reflexivity.
  - discriminate.
  - constructor; [discriminate | constructor].
Defined.

(** ** The listener's loop *)

Lemma listener_run_drains :
  forall (q : targets_chan) (fuel : nat) (o : Options.t),
    Options.input o = Some q ->
    (length q <= fuel)%nat ->
    Options.targets (listener_run fuel o)
    = fold_left (fun cur m => match m with
                              | None => cur
                              | Some s => PSlice s
                              end) q (Options.targets o)
    /\ Options.input (listener_run fuel o) = Some []
    /\ Options.InitTargets (listener_run fuel o) = Options.InitTargets o.
Proof.
  induction q as [|m q IH]; intros fuel o Hin Hfuel.
  - destruct fuel as [|k]; cbn; [auto |].
    unfold listener_step. rewrite Hin. auto.
  - destruct fuel as [|k]; [cbn in Hfuel; lia |].
    cbn [listener_run]. unfold listener_step. rewrite Hin.
    destruct m as [s|].
    + destruct (IH k (Options.set_targets (PSlice s)
                        (Options.set_input (Some q) o)) eq_refl
                  ltac:(cbn in Hfuel; lia)) as (H1 & H2 & H3).
      cbn in *. auto.
    + destruct (IH k (Options.set_input (Some q) o) eq_refl
                  ltac:(cbn in Hfuel; lia)) as (H1 & H2 & H3).
      cbn in *. auto.
Qed.

Lemma fold_nil_messages (k : nat) (cur : targets_ptr) :
  fold_left (fun cur (m : option slice) =>
               match m with
               | None => cur
               | Some s => PSlice s
               end) (repeat None k) cur = cur.
Proof. induction k as [|k IH]; cbn; auto. Qed.

(** X16: on a channel that is not nil the listener applies what it
    receives in delivery order, so the last replacement that is not nil wins:
    once the queue is drained the targets are that slice, whatever came
    before it and however many nil messages follow; a queue of nil messages
    only leaves the targets as they were.  In both cases the queue ends
    empty and [InitTargets] is untouched. *)
Theorem listener_last_replacement_wins
    (o : Options.t) (q1 : targets_chan) (s : slice) (k fuel : nat) :
  (Options.input o = Some (q1 ++ Some s :: repeat None k) ->
   (length q1 + S k <= fuel)%nat ->
   deref_targets (listener_run fuel o) = Done s
   /\ Options.input (listener_run fuel o) = Some []
   /\ Options.InitTargets (listener_run fuel o) = Options.InitTargets o)
  /\ (Options.input o = Some (repeat None k) ->
      (k <= fuel)%nat ->
      Options.targets (listener_run fuel o) = Options.targets o
      /\ Options.input (listener_run fuel o) = Some []).
Proof.
  split.
  - intros Hin Hfuel.
    destruct (listener_run_drains _ fuel o Hin) as (Ht & Hi & Hinit).
    { rewrite length_app. cbn [length]. rewrite repeat_length. lia. }
    split; [| split; assumption].
    unfold deref_targets. rewrite Ht, fold_left_app. cbn [fold_left].
    rewrite fold_nil_messages. reflexivity.
  - intros Hin Hfuel.
    destruct (listener_run_drains _ fuel o Hin) as (Ht & Hi & _).
    { rewrite repeat_length. exact Hfuel. }
    split; [| exact Hi]. rewrite Ht. apply fold_nil_messages.
Qed.

Lemma listener_last_replacement_wins_witness :
  deref_targets
    (listener_run 3
       (Options.set_input
          (Some [Some (Some ["A"%string]); Some (Some ["B"%string]); None])
          readme_options))
  = Done (Some ["B"%string]).
Proof.
  destruct (listener_last_replacement_wins
              (Options.set_input
                 (Some [Some (Some ["A"%string]); Some (Some ["B"%string]); None])
                 readme_options)
              [Some (Some ["A"%string])] (Some ["B"%string]) 1 3) as [H _].
  apply H; [reflexivity | cbn; lia].
Defined.

(** ** What every call preserves *)

Lemma Put_static (E : Env) (c c' : GRPCPool.t) wrap w w' r :
  Put E c wrap w = Done ((r, c'), w') ->
  GRPCPool.IdleTimeout c' = GRPCPool.IdleTimeout c
  /\ GRPCPool.timeoutType c' = GRPCPool.timeoutType c.
Proof.
  unfold Put. destruct wrap as [p|]; [| intros H; inversion H; subst; auto].
  intros H. mstep H. destruct (Conn a); [| inversion H; subst; auto].
  destruct (GRPCPool.conns c) as [ch|].
  - mstep H. destruct (Z.of_nat (length (chan_buf ch)) <? chan_cap ch).
    + inversion H; subst. auto.
    + mstep H. inversion H; subst. auto.
  - mstep H. inversion H; subst. auto.
Qed.

Lemma run_call_static (E : Env) (c c' : GRPCPool.t) k w w' :
  run_call E c k w = Done (c', w') ->
  GRPCPool.IdleTimeout c' = GRPCPool.IdleTimeout c
  /\ GRPCPool.timeoutType c' = GRPCPool.timeoutType c.
Proof.
  intros H. destruct k as [|wrap| | |cn]; cbn in H.
  - mstep H. destruct a as [r c1]. inversion H; subst; clear H.
    unfold Get in Hstep. destruct (GRPCPool.conns c).
    + mstep Hstep. inversion Hstep; subst. auto.
    + inversion Hstep; subst. auto.
  - mstep H. destruct a as [r c1]. inversion H; subst; clear H.
    eapply Put_static; eauto.
  - mstep H. destruct a as [[] c1]. inversion H; subst; clear H.
    apply Close_Done in Hstep. destruct Hstep as (-> & _). auto.
  - inversion H; subst. auto.
  - inversion H; subst. auto.
Qed.

(** X17: what a pool keeps through any calls of a client.  In every state
    reached from a pool that [NewGRPCPool] returned, the policy and the
    timeout are those of the options; the options themselves are as the
    client gave them, with the targets pointing at [InitTargets]; and while
    the pool is open it has both closures, a channel of capacity MaxCap, and
    a store in which every element is a wrapper that holds a connection. *)
Theorem reachable_pool_is_well_formed
    (E : Env) (w0 : World) (c : GRPCPool.t) (w : World) :
  reachable E w0 c w ->
  GRPCPool.IdleTimeout c = Options.IdleTimeout (opts w0)
  /\ GRPCPool.timeoutType c = Options.TimeoutType (opts w0)
  /\ opts w = Options.set_targets PInitTargets (opts w0)
  /\ forall ch,
       GRPCPool.conns c = Some ch ->
       GRPCPool.factory c = Some DialNextTarget
       /\ GRPCPool.close c = Some ConnClose
       /\ chan_cap ch = Options.MaxCap (opts w0)
       /\ Forall (stored_ok (heap w)) (chan_buf ch).
Proof.
  intros Hr.
  assert (Hs : GRPCPool.IdleTimeout c = Options.IdleTimeout (opts w0)
               /\ GRPCPool.timeoutType c = Options.TimeoutType (opts w0)).
  { induction Hr as [c w H | c w k c' w' _ IH H].
    - apply NewGRPCPool_Done in H. tauto.
    - apply run_call_static in H. destruct H, IH. split; congruence. }
  destruct Hs as [Hs1 Hs2].
  split; [exact Hs1 |]. split; [exact Hs2 |].
  split; [apply (reachable_opts _ _ _ _ Hr) |].
  apply reachable_inv in Hr. destruct Hr as [Hinv Hcap].
  intros ch Hch. unfold pool_inv in Hinv. rewrite Hch in Hinv.
  destruct Hinv as (Hf & Hcl & _ & Hst & _).
  repeat split; auto.
Qed.

Lemma reachable_pool_is_well_formed_witness :
  GRPCPool.IdleTimeout readme_pool
    = Options.IdleTimeout (opts (world_of readme_options))
  /\ GRPCPool.timeoutType readme_pool
     = Options.TimeoutType (opts (world_of readme_options))
  /\ opts readme_world
     = Options.set_targets PInitTargets (opts (world_of readme_options))
  /\ forall ch,
       GRPCPool.conns readme_pool = Some ch ->
       GRPCPool.factory readme_pool = Some DialNextTarget
       /\ GRPCPool.close readme_pool = Some ConnClose
       /\ chan_cap ch = Options.MaxCap (opts (world_of readme_options))
       /\ Forall (stored_ok (heap readme_world)) (chan_buf ch).
Proof.
  apply (reachable_pool_is_well_formed quiet_env (world_of readme_options)).
  apply reach_new. exact NewGRPCPool_readme.
Defined.
